(** * Minesweeper knowledge engine: a shallow embedding of [minesweeper.py]

    The Python classes [Minesweeper], [Sentence] and [MinesweeperAI] are
    embedded as modules of the same names.  Python sets of coordinates are
    [gset (Z * Z)] (value equality is Leibniz equality), Python integers are
    [Z], the [knowledge] list is a [list] of sentence values, and every
    method that mutates [self] becomes a function that returns the new
    [self].  [copy.deepcopy] snapshots are the immutable values themselves.
    The [print] calls and [show_current_knowledge] only write to the console
    and are left out. *)

From stdpp Require Import base numbers list sets fin_sets gmap.

Local Open Scope Z_scope.
Set Warnings "-clear-no-such-hyp".

(** A board coordinate [(i, j)]. *)
Abbreviation Cell := (Z * Z)%type.

(** The nine positions visited by
    [for i in range(c[0] - 1, c[0] + 2): for j in range(c[1] - 1, c[1] + 2)]. *)
Definition range3 (x : Z) : list Z := [x - 1; x; x + 1].

(** [0 <= i < height and 0 <= j < width] *)
Definition in_grid (height width i j : Z) : bool :=
  (0 <=? i) && (i <? height) && (0 <=? j) && (j <? width).

(** ** Results of calls that may raise *)

Inductive outcome (A : Type) : Type :=
| Done (a : A)
| ValueError
| OutOfFuel.
Arguments Done {A} a.
Arguments ValueError {A}.
Arguments OutOfFuel {A}.

#[global] Instance outcome_ret : MRet outcome := λ A a, Done a.
#[global] Instance outcome_bind : MBind outcome := λ A B f m,
  match m with
  | Done a => f a
  | ValueError => ValueError
  | OutOfFuel => OutOfFuel
  end.

(** ** class Minesweeper (the board) *)

Module Minesweeper.

(** The constructor sets [board[i][j] = True] exactly for the cells it puts
    in [mines], all of them on the board, so the board is kept as that set.
    For a cell on the board [is_mine] below is the code's [board[i][j]];
    off the board it is plain membership in [mines], where Python would
    wrap a negative index or raise [IndexError].  [nearby_mines] and
    [safe_reveal] consult it for cells on the board only. *)
Record t : Type := mk { height : Z; width : Z; mines : gset Cell }.

Definition is_mine (self : t) (cell : Cell) : bool :=
  bool_decide (cell ∈ mines self).

Definition nearby_mines (self : t) (cell : Cell) : Z :=
  foldl (λ count i,
    foldl (λ count j,
      if bool_decide ((i, j) = cell) then count
      else if in_grid (height self) (width self) i j then
        if is_mine self (i, j) then count + 1 else count
      else count)
    count (range3 cell.2))
  0 (range3 cell.1).

End Minesweeper.

(** ** class Sentence *)

Module Sentence.

Record t : Type := mk { cells : gset Cell; count : Z }.

(** [__eq__] *)
Definition eqb (self other : t) : bool :=
  bool_decide (cells self = cells other) && bool_decide (count self = count other).

Definition known_mines (self : t) : gset Cell :=
  if bool_decide (Z.of_nat (size (cells self)) = count self) then cells self else ∅.

Definition known_safes (self : t) : gset Cell :=
  if bool_decide (count self = 0) then cells self else ∅.

Definition mark_mine (cell : Cell) (self : t) : t :=
  if bool_decide (cell ∈ cells self)
  then mk (cells self ∖ {[cell]}) (count self - 1)
  else self.

Definition mark_safe (cell : Cell) (self : t) : t :=
  if bool_decide (cell ∈ cells self)
  then mk (cells self ∖ {[cell]}) (count self)
  else self.

End Sentence.

#[global] Instance Sentence_eq_dec : EqDecision Sentence.t.
Proof. solve_decision. Defined.

(** [x in l] on a list of sentences: some element is [==] to [x]. *)
Definition contains (x : Sentence.t) (l : list Sentence.t) : bool :=
  existsb (λ y, Sentence.eqb y x) l.

(** [l1 == l2] on lists of sentences: same length, elementwise [==]. *)
Fixpoint knowledge_eqb (l1 l2 : list Sentence.t) : bool :=
  match l1, l2 with
  | [], [] => true
  | x :: l1', y :: l2' => Sentence.eqb x y && knowledge_eqb l1' l2'
  | _, _ => false
  end.

(** [l.remove(x)]: drops the first element [==] to [x]; raises
    [ValueError] when there is none. *)
Fixpoint list_remove_first (x : Sentence.t) (l : list Sentence.t)
  : outcome (list Sentence.t) :=
  match l with
  | [] => ValueError
  | y :: l' =>
    if Sentence.eqb y x then Done l'
    else l'' ← list_remove_first x l'; Done (y :: l'')
  end.

(** [random.choice(seq)] is [seq[k]] for a drawn [k < len(seq)]; the draw is
    the argument [rnd], reduced modulo the length. *)
Definition choice {A : Type} (rnd : nat) (seq : list A) : option A :=
  seq !! (rnd mod length seq)%nat.

(** ** class MinesweeperAI *)

Module MinesweeperAI.

Record t : Type := mk {
  height : Z;
  width : Z;
  moves_made : gset Cell;
  mines : gset Cell;
  safes : gset Cell;
  knowledge : list Sentence.t
}.

Definition set_knowledge (k : list Sentence.t) (self : t) : t :=
  mk (height self) (width self) (moves_made self) (mines self) (safes self) k.

(** [__init__] *)
Definition init (height width : Z) : t := mk height width ∅ ∅ ∅ [].

Definition mark_mine (cell : Cell) (self : t) : t :=
  mk (height self) (width self) (moves_made self)
     (mines self ∪ {[cell]}) (safes self)
     (Sentence.mark_mine cell <$> knowledge self).

Definition mark_safe (cell : Cell) (self : t) : t :=
  mk (height self) (width self) (moves_made self)
     (mines self) (safes self ∪ {[cell]})
     (Sentence.mark_safe cell <$> knowledge self).

(** Lines 208-216 of [add_knowledge] (repeated in [get_neighbouring_cells]). *)
Definition neighbouring_cells (self : t) (cell : Cell) : gset Cell :=
  foldl (λ acc i,
    foldl (λ acc j,
      if in_grid (height self) (width self) i j then
        if bool_decide ((i, j) = cell) then acc else acc ∪ {[(i, j)]}
      else acc)
    acc (range3 cell.2))
  ∅ (range3 cell.1).

(** Lines 198-227 of [add_knowledge]: everything before the [while] loop. *)
Definition add_sentence (cell : Cell) (count : Z) (self : t) : t :=
  let self := mk (height self) (width self) (moves_made self ∪ {[cell]})
                 (mines self) (safes self) (knowledge self) in
  let self := mark_safe cell self in
  let new_sentence := Sentence.mk (neighbouring_cells self cell) count in
  let new_sentence :=
    foldl (λ s mine_cell, Sentence.mark_mine mine_cell s)
          new_sentence (elements (mines self)) in
  let new_sentence :=
    foldl (λ s safe_cell, Sentence.mark_safe safe_cell s)
          new_sentence (elements (safes self)) in
  set_knowledge (knowledge self ++ [new_sentence]) self.

(** Body of the outer loop of [refresh_knowledge], for one sentence of the
    snapshot. *)
Definition refresh_sentence (self : t) (sentence : Sentence.t) : t :=
  let self :=
    foldl (λ self known_mine, mark_mine known_mine self)
          self (elements (Sentence.known_mines sentence)) in
  foldl (λ self known_safe, mark_safe known_safe self)
        self (elements (Sentence.known_safes sentence)).

Definition refresh_knowledge (self : t) : t :=
  let starting_knowledge := knowledge self in
  foldl refresh_sentence self starting_knowledge.

(** Body of the loop of [remove_stale_sentences]; [acc] is [self] so far, or
    the exception that was raised. *)
Definition remove_stale_step (acc : outcome t) (sentence : Sentence.t) : outcome t :=
  self ← acc;
  if bool_decide (Sentence.cells sentence = ∅) then
    k ← list_remove_first sentence (knowledge self);
    Done (set_knowledge k self)
  else Done self.

Definition remove_stale_sentences (self : t) : outcome t :=
  let starting_knowledge := knowledge self in
  foldl remove_stale_step (Done self) starting_knowledge.

(** Body of the inner loop of [infer_new_sentences]. *)
Definition infer_pair (sentence_1 : Sentence.t) (self : t) (sentence_2 : Sentence.t) : t :=
  if bool_decide (Sentence.cells sentence_1 ⊂ Sentence.cells sentence_2) then
    let unique_set := Sentence.cells sentence_2 ∖ Sentence.cells sentence_1 in
    let new_sentence :=
      Sentence.mk unique_set
        (Sentence.count sentence_2 - Sentence.count sentence_1) in
    if contains new_sentence (knowledge self) then self
    else set_knowledge (knowledge self ++ [new_sentence]) self
  else self.

Definition infer_new_sentences (self : t) : t :=
  let starting_knowledge := knowledge self in
  foldl (λ self sentence_1, foldl (infer_pair sentence_1) self starting_knowledge)
        self starting_knowledge.

(** Which [break] left the [while True] loop of [add_knowledge]. *)
Inductive loop_exit : Type :=
| NoChange   (* [if self.knowledge == starting_knowledge: break] *)
| SizeCap.   (* [if len(self.knowledge) > 50: break] *)

(** Lines 234-253: the [while True] loop.  [fuel] bounds the number of
    passes the model may take. *)
Fixpoint add_knowledge_loop (fuel : nat) (self : t) : outcome (loop_exit * t) :=
  match fuel with
  | O => OutOfFuel
  | S fuel =>
    let starting_knowledge := knowledge self in
    let self := refresh_knowledge self in
    self ← remove_stale_sentences self;
    let self := infer_new_sentences self in
    if knowledge_eqb (knowledge self) starting_knowledge then Done (NoChange, self)
    else if bool_decide (50 < length (knowledge self))%nat then Done (SizeCap, self)
    else add_knowledge_loop fuel self
  end.

(** [add_knowledge], together with the exit its loop took. *)
Definition add_knowledge_exit (fuel : nat) (cell : Cell) (count : Z) (self : t)
  : outcome (loop_exit * t) :=
  add_knowledge_loop fuel (add_sentence cell count self).

Definition add_knowledge (fuel : nat) (cell : Cell) (count : Z) (self : t)
  : outcome t :=
  r ← add_knowledge_exit fuel cell count self; Done r.2.

(** [make_safe_move] reads [self] and returns a move; the second component
    is [self] as the call leaves it. *)
Definition make_safe_move (rnd : nat) (self : t) : option Cell * t :=
  let available_moves := safes self ∖ moves_made self in
  if bool_decide (available_moves ≠ ∅) then
    let available_moves := elements available_moves in
    (choice rnd available_moves, self)
  else (None, self).

(** [make_random_move] reads [self] in the same way; [range(n)] is
    [seqZ 0 n], empty when [n <= 0]. *)
Definition make_random_move (rnd : nat) (self : t) : option Cell * t :=
  let available_moves :=
    foldl (λ acc i, foldl (λ acc j, acc ∪ {[(i, j)]}) acc (seqZ 0 (width self)))
          ∅ (seqZ 0 (height self)) in
  let available_moves := available_moves ∖ moves_made self in
  let available_moves := available_moves ∖ mines self in
  let available_moves := elements available_moves in
  if bool_decide (available_moves ≠ []) then (choice rnd available_moves, self)
  else (None, self).

End MinesweeperAI.


(** ** Honest play against a fixed board *)

(** A reveal of [cell] is honest for the board [g] when [cell] lies on the
    board, is not a mine, and the count handed to [add_knowledge] is
    [g.nearby_mines(cell)]. *)
Definition safe_reveal (g : Minesweeper.t) (cell : Cell) : bool :=
  in_grid (Minesweeper.height g) (Minesweeper.width g) cell.1 cell.2
  && negb (Minesweeper.is_mine g cell).

(** Engine states reached from a fresh engine of the board's size by calls
    whose arguments agree with the board.  Every method of the class that
    changes or returns something is a step; [show_current_knowledge] prints
    only, and [get_neighbouring_cells] reads the unbound name [cell]. *)
Inductive honest (g : Minesweeper.t) : MinesweeperAI.t → Prop :=
| honest_init :
    honest g (MinesweeperAI.init (Minesweeper.height g) (Minesweeper.width g))
| honest_add_knowledge fuel cell ai ai' :
    honest g ai →
    safe_reveal g cell = true →
    MinesweeperAI.add_knowledge fuel cell (Minesweeper.nearby_mines g cell) ai = Done ai' →
    honest g ai'
| honest_mark_mine cell ai :
    honest g ai →
    Minesweeper.is_mine g cell = true →
    honest g (MinesweeperAI.mark_mine cell ai)
| honest_mark_safe cell ai :
    honest g ai →
    Minesweeper.is_mine g cell = false →
    honest g (MinesweeperAI.mark_safe cell ai)
| honest_make_safe_move rnd ai :
    honest g ai →
    honest g (MinesweeperAI.make_safe_move rnd ai).2
| honest_make_random_move rnd ai :
    honest g ai →
    honest g (MinesweeperAI.make_random_move rnd ai).2
| honest_refresh_knowledge ai :
    honest g ai →
    honest g (MinesweeperAI.refresh_knowledge ai)
| honest_remove_stale_sentences ai ai' :
    honest g ai →
    MinesweeperAI.remove_stale_sentences ai = Done ai' →
    honest g ai'
| honest_infer_new_sentences ai :
    honest g ai →
    honest g (MinesweeperAI.infer_new_sentences ai).

(** Engine states reached from a fresh engine by any calls at all. *)
Inductive reachable : MinesweeperAI.t → Prop :=
| reachable_init height width :
    reachable (MinesweeperAI.init height width)
| reachable_add_knowledge fuel cell count ai ai' :
    reachable ai →
    MinesweeperAI.add_knowledge fuel cell count ai = Done ai' →
    reachable ai'
| reachable_mark_mine cell ai :
    reachable ai → reachable (MinesweeperAI.mark_mine cell ai)
| reachable_mark_safe cell ai :
    reachable ai → reachable (MinesweeperAI.mark_safe cell ai)
| reachable_refresh_knowledge ai :
    reachable ai → reachable (MinesweeperAI.refresh_knowledge ai)
| reachable_remove_stale_sentences ai ai' :
    reachable ai →
    MinesweeperAI.remove_stale_sentences ai = Done ai' →
    reachable ai'
| reachable_infer_new_sentences ai :
    reachable ai → reachable (MinesweeperAI.infer_new_sentences ai).

(** Honest play of a list of reveals, one [add_knowledge] call each. *)
Fixpoint play (fuel : nat) (g : Minesweeper.t) (reveals : list Cell)
  (ai : MinesweeperAI.t) : outcome MinesweeperAI.t :=
  match reveals with
  | [] => Done ai
  | cell :: rest =>
    ai ← MinesweeperAI.add_knowledge fuel cell (Minesweeper.nearby_mines g cell) ai;
    play fuel g rest ai
  end.

(** ** Measures and predicates used in the statements *)

(** Every coordinate mentioned by some sentence of the knowledge list. *)
Definition all_cells (k : list Sentence.t) : gset Cell :=
  ⋃ (Sentence.cells <$> k).

(** A number of passes that is always enough for the loop of
    [add_knowledge] started on [ai]. *)
Definition loop_budget (ai : MinesweeperAI.t) : nat :=
  (52 * size (all_cells (MinesweeperAI.knowledge ai)) + 54)%nat.

(** A sentence that is not stale. *)
Definition has_cells (s : Sentence.t) : Prop := Sentence.cells s ≠ ∅.

#[global] Instance has_cells_dec (s : Sentence.t) : Decision (has_cells s).
Proof. unfold has_cells. apply _. Defined.

(** A sentence from which a fact can be read off at once: it has cells, and
    its count is zero or the number of its cells. *)
Definition pending (s : Sentence.t) : Prop :=
  Sentence.cells s ≠ ∅ ∧
  (Sentence.count s = 0 ∨ Sentence.count s = Z.of_nat (size (Sentence.cells s))).

(** No sentence of the knowledge list mentions a resolved coordinate. *)
Definition narrowed (ai : MinesweeperAI.t) : Prop :=
  ∀ s, s ∈ MinesweeperAI.knowledge ai →
    Sentence.cells s ## MinesweeperAI.mines ai ∧
    Sentence.cells s ## MinesweeperAI.safes ai.

(** One call made by [refresh_knowledge] on the engine. *)
Inductive mark : Type :=
| MarkMine (c : Cell)
| MarkSafe (c : Cell).

Definition mark_cell (m : mark) : Cell :=
  match m with MarkMine c | MarkSafe c => c end.

Definition apply_mark (ai : MinesweeperAI.t) (m : mark) : MinesweeperAI.t :=
  match m with
  | MarkMine c => MinesweeperAI.mark_mine c ai
  | MarkSafe c => MinesweeperAI.mark_safe c ai
  end.

(** The calls [refresh_knowledge] makes for one sentence of its snapshot,
    and for the whole snapshot, in order. *)
Definition marks_of_sentence (s : Sentence.t) : list mark :=
  (MarkMine <$> elements (Sentence.known_mines s))
  ++ (MarkSafe <$> elements (Sentence.known_safes s)).

Definition marks_of (k : list Sentence.t) : list mark :=
  k ≫= marks_of_sentence.

(** The sentence [infer_new_sentences] builds from a pair. *)
Definition derived (a b : Sentence.t) : Sentence.t :=
  Sentence.mk (Sentence.cells b ∖ Sentence.cells a)
              (Sentence.count b - Sentence.count a).

(** One pass of the loop of [add_knowledge], once [remove_stale_sentences]
    is known not to raise. *)
Definition pass (ai : MinesweeperAI.t) : MinesweeperAI.t :=
  let ai := MinesweeperAI.refresh_knowledge ai in
  MinesweeperAI.infer_new_sentences
    (MinesweeperAI.set_knowledge (filter has_cells (MinesweeperAI.knowledge ai)) ai).

(** The ordered pairs [infer_new_sentences] visits, in the order of its two
    nested loops over the snapshot. *)
Definition pairs_of (k : list Sentence.t) : list (Sentence.t * Sentence.t) :=
  k ≫= λ a, pair a <$> k.

(** What the sentences [added] by [infer_new_sentences] to the list [k]
    after visiting the pairs [ps] are. *)
Record infer_post (ps : list (Sentence.t * Sentence.t)) (k added : list Sentence.t)
  : Prop := {
  infer_sound : ∀ n, n ∈ added →
    ∃ a b, (a, b) ∈ ps ∧ Sentence.cells a ⊂ Sentence.cells b ∧ n = derived a b;
  infer_complete : ∀ a b, (a, b) ∈ ps → Sentence.cells a ⊂ Sentence.cells b →
    derived a b ∈ k ++ added;
  infer_fresh : ∀ n, n ∈ added → n ∉ k;
  infer_nodup : NoDup added
}.

(** The quantity that decreases from one pass of the loop to the next. *)
Definition loop_measure (ai : MinesweeperAI.t) : nat :=
  (52 * size (all_cells (MinesweeperAI.knowledge ai))
   + (51 - length (MinesweeperAI.knowledge ai)))%nat.

(** The sentence [s] states the truth about the board [g]. *)
Definition counts (g : Minesweeper.t) (s : Sentence.t) : Prop :=
  Sentence.count s = Z.of_nat (size (Sentence.cells s ∩ Minesweeper.mines g)).

(** The mark [m] states the truth about the board [g]. *)
Definition mark_true (g : Minesweeper.t) (m : mark) : Prop :=
  match m with
  | MarkMine c => c ∈ Minesweeper.mines g
  | MarkSafe c => c ∉ Minesweeper.mines g
  end.

(** The engine state agrees with the board: known mines are mines, known
    safes are not, and every sentence counts the mines among its cells. *)
Definition agrees (g : Minesweeper.t) (ai : MinesweeperAI.t) : Prop :=
  MinesweeperAI.mines ai ⊆ Minesweeper.mines g ∧
  MinesweeperAI.safes ai ## Minesweeper.mines g ∧
  ∀ s, s ∈ MinesweeperAI.knowledge ai → counts g s.

(** The nine positions of the two nested [range] loops around [cell], in
    the order the loops visit them. *)
Definition window (cell : Cell) : list Cell :=
  range3 cell.1 ≫= λ i, pair i <$> range3 cell.2.

(** [p] is on the [height] by [width] grid and is not [cell]. *)
Definition neighbour_ok (height width : Z) (cell p : Cell) : Prop :=
  in_grid height width p.1 p.2 = true ∧ p ≠ cell.

#[global] Instance neighbour_ok_dec height width cell p :
  Decision (neighbour_ok height width cell p).
Proof. unfold neighbour_ok. apply _. Defined.

(** The engine was built for the board [g]. *)
Definition sized (g : Minesweeper.t) (ai : MinesweeperAI.t) : Prop :=
  MinesweeperAI.height ai = Minesweeper.height g
  ∧ MinesweeperAI.width ai = Minesweeper.width g.

(** [ai'] has the board size and the moves of [ai], and at least its known
    mines and known safes. *)
Definition extends (ai ai' : MinesweeperAI.t) : Prop :=
  MinesweeperAI.height ai' = MinesweeperAI.height ai
  ∧ MinesweeperAI.width ai' = MinesweeperAI.width ai
  ∧ MinesweeperAI.moves_made ai' = MinesweeperAI.moves_made ai
  ∧ MinesweeperAI.mines ai ⊆ MinesweeperAI.mines ai'
  ∧ MinesweeperAI.safes ai ⊆ MinesweeperAI.safes ai'.

(** ** A long honest game on a board of one row

    Mines lie on the columns 0, 4, ..., 196 and on column 202; the columns
    1, 5, ..., 197 and then 201 are revealed, and column 203 last. *)

Definition cap_board : Minesweeper.t :=
  Minesweeper.mk 1 204
    (list_to_set ((λ k, (0, 4 * Z.of_nat k)) <$> seq 0 50) ∪ {[ (0, 202) ]}).

Definition cap_reveals : list Cell :=
  ((λ k, (0, 4 * Z.of_nat k + 1)) <$> seq 0 50) ++ [(0, 201)].

(** The value a call returned, or [d] when it did not return one. *)
Definition from_done {A : Type} (d : A) (o : outcome A) : A :=
  match o with Done a => a | _ => d end.

(** The engine after [cap_reveals], and after the reveal of column 203. *)
Definition cap_before : MinesweeperAI.t :=
  Eval vm_compute in
    from_done (MinesweeperAI.init 1 204)
      (play 10 cap_board cap_reveals (MinesweeperAI.init 1 204)).

Definition cap_after : MinesweeperAI.t :=
  Eval vm_compute in
    from_done cap_before
      (MinesweeperAI.add_knowledge 10 (0, 203)
         (Minesweeper.nearby_mines cap_board (0, 203)) cap_before).

(** ** Further notions used in the statements *)

(** What one call of [refresh_knowledge] does to one sentence. *)
Definition narrow (s : Sentence.t) (m : mark) : Sentence.t :=
  match m with
  | MarkMine c => Sentence.mark_mine c s
  | MarkSafe c => Sentence.mark_safe c s
  end.

(** The coordinates a list of marks records as mines, and as safe. *)
Fixpoint mine_cells (ms : list mark) : gset Cell :=
  match ms with
  | [] => ∅
  | MarkMine c :: ms => {[c]} ∪ mine_cells ms
  | MarkSafe _ :: ms => mine_cells ms
  end.

Fixpoint safe_cells (ms : list mark) : gset Cell :=
  match ms with
  | [] => ∅
  | MarkMine _ :: ms => safe_cells ms
  | MarkSafe c :: ms => {[c]} ∪ safe_cells ms
  end.

(** Every coordinate the engine has something to say about. *)
Definition known (ai : MinesweeperAI.t) : gset Cell :=
  MinesweeperAI.mines ai ∪ MinesweeperAI.safes ai
  ∪ all_cells (MinesweeperAI.knowledge ai).

(** * Proofs *)

(** ** Python's [==] and [in] against Leibniz equality *)

Lemma Sentence_eqb_eq (x y : Sentence.t) : Sentence.eqb x y = true ↔ x = y.
Proof.
  unfold Sentence.eqb. rewrite andb_true_iff, !bool_decide_eq_true.
  destruct x, y; simpl. split; [intros [-> ->]; done | by inversion 1].
Qed.

Lemma Sentence_eqb_neq (x y : Sentence.t) : Sentence.eqb x y = false ↔ x ≠ y.
Proof. rewrite <- Sentence_eqb_eq. destruct (Sentence.eqb x y); naive_solver. Qed.

Lemma contains_elem_of (x : Sentence.t) (l : list Sentence.t) :
  contains x l = true ↔ x ∈ l.
Proof.
  unfold contains. induction l as [|y l IH]; simpl.
  - split; [done | by intros ?%elem_of_nil].
  - rewrite orb_true_iff, IH, Sentence_eqb_eq, elem_of_cons. naive_solver.
Qed.

Lemma contains_not_elem_of (x : Sentence.t) (l : list Sentence.t) :
  contains x l = false ↔ x ∉ l.
Proof. rewrite <- contains_elem_of. destruct (contains x l); naive_solver. Qed.

Lemma knowledge_eqb_eq (l1 l2 : list Sentence.t) :
  knowledge_eqb l1 l2 = true ↔ l1 = l2.
Proof.
  revert l2. induction l1 as [|x l1 IH]; intros [|y l2]; simpl; try done.
  rewrite andb_true_iff, IH, Sentence_eqb_eq. naive_solver.
Qed.

Lemma knowledge_eqb_neq (l1 l2 : list Sentence.t) :
  knowledge_eqb l1 l2 = false ↔ l1 ≠ l2.
Proof. rewrite <- knowledge_eqb_eq. destruct (knowledge_eqb l1 l2); naive_solver. Qed.

(** ** Narrowing one sentence *)

Lemma Sentence_mark_mine_in (c : Cell) (s : Sentence.t) :
  c ∈ Sentence.cells s →
  Sentence.mark_mine c s = Sentence.mk (Sentence.cells s ∖ {[c]}) (Sentence.count s - 1).
Proof. intros Hc. unfold Sentence.mark_mine. by rewrite bool_decide_eq_true_2. Qed.

Lemma Sentence_mark_mine_notin (c : Cell) (s : Sentence.t) :
  c ∉ Sentence.cells s → Sentence.mark_mine c s = s.
Proof. intros Hc. unfold Sentence.mark_mine. by rewrite bool_decide_eq_false_2. Qed.

Lemma Sentence_mark_safe_in (c : Cell) (s : Sentence.t) :
  c ∈ Sentence.cells s →
  Sentence.mark_safe c s = Sentence.mk (Sentence.cells s ∖ {[c]}) (Sentence.count s).
Proof. intros Hc. unfold Sentence.mark_safe. by rewrite bool_decide_eq_true_2. Qed.

Lemma Sentence_mark_safe_notin (c : Cell) (s : Sentence.t) :
  c ∉ Sentence.cells s → Sentence.mark_safe c s = s.
Proof. intros Hc. unfold Sentence.mark_safe. by rewrite bool_decide_eq_false_2. Qed.

Lemma Sentence_mark_mine_cells (c : Cell) (s : Sentence.t) :
  Sentence.cells (Sentence.mark_mine c s) = Sentence.cells s ∖ {[c]}.
Proof.
  unfold Sentence.mark_mine. case_bool_decide; simpl; [done | set_solver].
Qed.

Lemma Sentence_mark_safe_cells (c : Cell) (s : Sentence.t) :
  Sentence.cells (Sentence.mark_safe c s) = Sentence.cells s ∖ {[c]}.
Proof.
  unfold Sentence.mark_safe. case_bool_decide; simpl; [done | set_solver].
Qed.

(** C6: narrowing a sentence by one of its own cells removes the cell, and
    [mark_mine] also lowers the count by one while [mark_safe] keeps it;
    narrowing by a cell the sentence does not mention changes nothing. *)
Theorem narrow_correct (s : Sentence.t) (c : Cell) :
  (c ∈ Sentence.cells s →
     Sentence.mark_mine c s
       = Sentence.mk (Sentence.cells s ∖ {[c]}) (Sentence.count s - 1)
     ∧ Sentence.mark_safe c s
       = Sentence.mk (Sentence.cells s ∖ {[c]}) (Sentence.count s))
  ∧ (c ∉ Sentence.cells s →
     Sentence.mark_mine c s = s ∧ Sentence.mark_safe c s = s).
Proof.
  split; intros Hc.
  - split; [by apply Sentence_mark_mine_in | by apply Sentence_mark_safe_in].
  - split; [by apply Sentence_mark_mine_notin | by apply Sentence_mark_safe_notin].
Qed.

Lemma narrow_correct_witness :
  let s := Sentence.mk {[ (0, 1); (1, 0); (1, 1) ]} 2 in
  (Sentence.mark_mine (1, 0) s = Sentence.mk ({[ (0, 1); (1, 0); (1, 1) ]} ∖ {[ (1, 0) ]}) 1
   ∧ Sentence.mark_safe (1, 0) s = Sentence.mk ({[ (0, 1); (1, 0); (1, 1) ]} ∖ {[ (1, 0) ]}) 2)
  ∧ (Sentence.mark_mine (2, 2) s = s ∧ Sentence.mark_safe (2, 2) s = s).
Proof.
  intros s. split.
  - apply (proj1 (narrow_correct s (1, 0))). vm_compute. reflexivity.
  - apply (proj2 (narrow_correct s (2, 2))). vm_compute. intros H. discriminate H.
Defined.

(** ** [MinesweeperAI.mark_mine] and [MinesweeperAI.mark_safe] *)

Lemma Sentence_mark_mine_idemp (c : Cell) (s : Sentence.t) :
  Sentence.mark_mine c (Sentence.mark_mine c s) = Sentence.mark_mine c s.
Proof.
  apply Sentence_mark_mine_notin. rewrite Sentence_mark_mine_cells. set_solver.
Qed.

Lemma Sentence_mark_safe_idemp (c : Cell) (s : Sentence.t) :
  Sentence.mark_safe c (Sentence.mark_safe c s) = Sentence.mark_safe c s.
Proof.
  apply Sentence_mark_safe_notin. rewrite Sentence_mark_safe_cells. set_solver.
Qed.

(** C7: recording the same coordinate twice in a row, as a mine or as a
    safe cell, leaves the engine exactly as recording it once. *)
Theorem mark_idempotent (ai : MinesweeperAI.t) (c : Cell) :
  MinesweeperAI.mark_mine c (MinesweeperAI.mark_mine c ai) = MinesweeperAI.mark_mine c ai
  ∧ MinesweeperAI.mark_safe c (MinesweeperAI.mark_safe c ai) = MinesweeperAI.mark_safe c ai.
Proof.
  unfold MinesweeperAI.mark_mine, MinesweeperAI.mark_safe; simpl. split; f_equal.
  - set_solver.
  - rewrite <- list_fmap_compose. apply list_fmap_ext.
    intros i s _. simpl. apply Sentence_mark_mine_idemp.
  - set_solver.
  - rewrite <- list_fmap_compose. apply list_fmap_ext.
    intros i s _. simpl. apply Sentence_mark_safe_idemp.
Qed.

(** ** The order in which Python iterates over a set does not matter

    The model iterates over [elements X]; any other order of the same
    coordinates gives the same sentence and the same engine. *)

Lemma foldl_comm_permutation {A B : Type} (f : A → B → A) (l l' : list B) :
  (∀ a x y, f (f a x) y = f (f a y) x) →
  l ≡ₚ l' → ∀ a, foldl f a l = foldl f a l'.
Proof.
  intros Hf. induction 1 as [|x l l' _ IH|x y l|l1 l2 l3 _ IH1 _ IH2]; intros a; simpl.
  - done.
  - apply IH.
  - by rewrite Hf.
  - by rewrite IH1.
Qed.

Lemma Sentence_mark_mine_comm (c1 c2 : Cell) (s : Sentence.t) :
  Sentence.mark_mine c1 (Sentence.mark_mine c2 s)
  = Sentence.mark_mine c2 (Sentence.mark_mine c1 s).
Proof.
  destruct (decide (c1 = c2)) as [->|Hne]; [done |].
  destruct (decide (c1 ∈ Sentence.cells s)) as [H1|H1];
    destruct (decide (c2 ∈ Sentence.cells s)) as [H2|H2].
  - rewrite (Sentence_mark_mine_in c2 s H2), (Sentence_mark_mine_in c1 s H1).
    rewrite !Sentence_mark_mine_in by (simpl; set_solver). simpl.
    f_equal; set_solver.
  - rewrite (Sentence_mark_mine_notin c2 s H2), (Sentence_mark_mine_in c1 s H1).
    by rewrite Sentence_mark_mine_notin by (simpl; set_solver).
  - rewrite (Sentence_mark_mine_notin c1 s H1), (Sentence_mark_mine_in c2 s H2).
    by rewrite Sentence_mark_mine_notin by (simpl; set_solver).
  - by rewrite (Sentence_mark_mine_notin c2 s H2), (Sentence_mark_mine_notin c1 s H1),
      (Sentence_mark_mine_notin c2 s H2).
Qed.

Lemma Sentence_mark_safe_comm (c1 c2 : Cell) (s : Sentence.t) :
  Sentence.mark_safe c1 (Sentence.mark_safe c2 s)
  = Sentence.mark_safe c2 (Sentence.mark_safe c1 s).
Proof.
  destruct (decide (c1 = c2)) as [->|Hne]; [done |].
  destruct (decide (c1 ∈ Sentence.cells s)) as [H1|H1];
    destruct (decide (c2 ∈ Sentence.cells s)) as [H2|H2].
  - rewrite (Sentence_mark_safe_in c2 s H2), (Sentence_mark_safe_in c1 s H1).
    rewrite !Sentence_mark_safe_in by (simpl; set_solver). simpl.
    f_equal; set_solver.
  - rewrite (Sentence_mark_safe_notin c2 s H2), (Sentence_mark_safe_in c1 s H1).
    by rewrite Sentence_mark_safe_notin by (simpl; set_solver).
  - rewrite (Sentence_mark_safe_notin c1 s H1), (Sentence_mark_safe_in c2 s H2).
    by rewrite Sentence_mark_safe_notin by (simpl; set_solver).
  - by rewrite (Sentence_mark_safe_notin c2 s H2), (Sentence_mark_safe_notin c1 s H1),
      (Sentence_mark_safe_notin c2 s H2).
Qed.

Lemma mark_mine_comm (c1 c2 : Cell) (ai : MinesweeperAI.t) :
  MinesweeperAI.mark_mine c1 (MinesweeperAI.mark_mine c2 ai)
  = MinesweeperAI.mark_mine c2 (MinesweeperAI.mark_mine c1 ai).
Proof.
  unfold MinesweeperAI.mark_mine. simpl. f_equal; [set_solver |].
  rewrite <- !list_fmap_compose. apply list_fmap_ext.
  intros i s _. apply Sentence_mark_mine_comm.
Qed.

Lemma mark_safe_comm (c1 c2 : Cell) (ai : MinesweeperAI.t) :
  MinesweeperAI.mark_safe c1 (MinesweeperAI.mark_safe c2 ai)
  = MinesweeperAI.mark_safe c2 (MinesweeperAI.mark_safe c1 ai).
Proof.
  unfold MinesweeperAI.mark_safe. simpl. f_equal; [set_solver |].
  rewrite <- !list_fmap_compose. apply list_fmap_ext.
  intros i s _. apply Sentence_mark_safe_comm.
Qed.

Lemma refresh_sentence_any_order (ai : MinesweeperAI.t) (s : Sentence.t)
  (known_mines known_safes : list Cell) :
  known_mines ≡ₚ elements (Sentence.known_mines s) →
  known_safes ≡ₚ elements (Sentence.known_safes s) →
  foldl (λ self c, MinesweeperAI.mark_safe c self)
    (foldl (λ self c, MinesweeperAI.mark_mine c self) ai known_mines) known_safes
  = MinesweeperAI.refresh_sentence ai s.
Proof.
  intros Hm Hs. unfold MinesweeperAI.refresh_sentence.
  rewrite (foldl_comm_permutation _ _ _ (λ a x y, mark_mine_comm y x a) Hm).
  by rewrite (foldl_comm_permutation _ _ _ (λ a x y, mark_safe_comm y x a) Hs).
Qed.

Lemma narrow_new_sentence_any_order (new : Sentence.t) (mines safes : gset Cell)
  (mine_cells safe_cells : list Cell) :
  mine_cells ≡ₚ elements mines →
  safe_cells ≡ₚ elements safes →
  foldl (λ s c, Sentence.mark_safe c s)
    (foldl (λ s c, Sentence.mark_mine c s) new mine_cells) safe_cells
  = foldl (λ s c, Sentence.mark_safe c s)
      (foldl (λ s c, Sentence.mark_mine c s) new (elements mines)) (elements safes).
Proof.
  intros Hm Hs.
  rewrite (foldl_comm_permutation _ _ _ (λ a x y, Sentence_mark_mine_comm y x a) Hm).
  by rewrite (foldl_comm_permutation _ _ _ (λ a x y, Sentence_mark_safe_comm y x a) Hs).
Qed.

(** ** [make_safe_move] *)

Lemma choice_elem_of {A : Type} (rnd : nat) (seq : list A) :
  seq ≠ [] → ∃ x, choice rnd seq = Some x ∧ x ∈ seq.
Proof.
  intros Hne. unfold choice.
  assert (rnd mod length seq < length seq)%nat as Hlt.
  { apply Nat.mod_upper_bound. destruct seq; [done | simpl; lia]. }
  destruct (lookup_lt_is_Some_2 _ _ Hlt) as [x Hx].
  exists x. split; [done |]. by eapply list_elem_of_lookup_2.
Qed.

Lemma make_safe_move_state (rnd : nat) (ai : MinesweeperAI.t) :
  (MinesweeperAI.make_safe_move rnd ai).2 = ai.
Proof. unfold MinesweeperAI.make_safe_move. by case_bool_decide. Qed.

Lemma make_random_move_state (rnd : nat) (ai : MinesweeperAI.t) :
  (MinesweeperAI.make_random_move rnd ai).2 = ai.
Proof. unfold MinesweeperAI.make_random_move. by case_bool_decide. Qed.

(** C8: [make_safe_move] leaves the engine as it found it; when some known
    safe cell has not been played it returns one such cell, and it returns
    [None] exactly when there is none. *)
Theorem make_safe_move_correct (rnd : nat) (ai : MinesweeperAI.t) :
  (MinesweeperAI.make_safe_move rnd ai).2 = ai
  ∧ (MinesweeperAI.safes ai ∖ MinesweeperAI.moves_made ai ≠ ∅ →
     ∃ c, (MinesweeperAI.make_safe_move rnd ai).1 = Some c
          ∧ c ∈ MinesweeperAI.safes ai ∖ MinesweeperAI.moves_made ai)
  ∧ ((MinesweeperAI.make_safe_move rnd ai).1 = None
     ↔ MinesweeperAI.safes ai ∖ MinesweeperAI.moves_made ai = ∅).
Proof.
  unfold MinesweeperAI.make_safe_move.
  set (av := MinesweeperAI.safes ai ∖ MinesweeperAI.moves_made ai).
  case_bool_decide as Hav; simpl.
  - assert (elements av ≠ []) as Hel.
    { intros Hnil. apply Hav. by apply leibniz_equiv, elements_empty_inv. }
    destruct (choice_elem_of rnd _ Hel) as (c & Hc & Hin).
    split; [done |]. split.
    + intros _. exists c. split; [done |]. by apply elem_of_elements.
    + rewrite Hc. split; [done | intros ?; done].
  - assert (av = ∅) as Hav' by (destruct (decide (av = ∅)); [done | by destruct Hav]).
    split; [done |]. split; [intros ?; done | done].
Qed.

Lemma make_safe_move_correct_witness :
  let ai := MinesweeperAI.mk 3 3 {[ (1, 1) ]} ∅ {[ (1, 1); (0, 2) ]} [] in
  ∃ c, (MinesweeperAI.make_safe_move 7 ai).1 = Some c
       ∧ c ∈ MinesweeperAI.safes ai ∖ MinesweeperAI.moves_made ai.
Proof.
  intros ai.
  apply (proj1 (proj2 (make_safe_move_correct 7 ai))).
  vm_compute. intros H. discriminate H.
Defined.

(** ** [remove_stale_sentences] never raises and keeps the sentences with cells *)

Lemma list_remove_first_app (pre k : list Sentence.t) (s : Sentence.t) :
  Forall has_cells pre → Sentence.cells s = ∅ →
  list_remove_first s (pre ++ s :: k) = Done (pre ++ k).
Proof.
  intros Hpre Hs. induction Hpre as [|x pre Hx _ IH]; simpl.
  - by rewrite (proj2 (Sentence_eqb_eq s s) eq_refl).
  - rewrite (proj2 (Sentence_eqb_neq x s)); [| intros ->; by apply Hx].
    by rewrite IH.
Qed.

Lemma remove_stale_step_stale (pre k : list Sentence.t) (s : Sentence.t) ai :
  Forall has_cells pre → Sentence.cells s = ∅ →
  MinesweeperAI.remove_stale_step (Done (MinesweeperAI.set_knowledge (pre ++ s :: k) ai)) s
  = Done (MinesweeperAI.set_knowledge (pre ++ k) ai).
Proof.
  intros Hpre Hs. unfold MinesweeperAI.remove_stale_step. simpl.
  rewrite bool_decide_eq_true_2 by done.
  by rewrite list_remove_first_app.
Qed.

Lemma remove_stale_step_keep (k : list Sentence.t) (s : Sentence.t) ai :
  Sentence.cells s ≠ ∅ →
  MinesweeperAI.remove_stale_step (Done (MinesweeperAI.set_knowledge k ai)) s
  = Done (MinesweeperAI.set_knowledge k ai).
Proof.
  intros Hs. unfold MinesweeperAI.remove_stale_step. simpl. by rewrite bool_decide_eq_false_2.
Qed.

Lemma remove_stale_fold (snapshot pre : list Sentence.t) (ai : MinesweeperAI.t) :
  Forall has_cells pre →
  foldl MinesweeperAI.remove_stale_step
    (Done (MinesweeperAI.set_knowledge (pre ++ snapshot) ai)) snapshot
  = Done (MinesweeperAI.set_knowledge (pre ++ filter has_cells snapshot) ai).
Proof.
  revert pre. induction snapshot as [|s snapshot IH]; intros pre Hpre; [done |].
  cbn [foldl]. destruct (decide (Sentence.cells s = ∅)) as [Hs|Hs].
  - rewrite remove_stale_step_stale by done.
    rewrite filter_cons_False by (unfold has_cells; naive_solver).
    by apply IH.
  - rewrite remove_stale_step_keep by done.
    rewrite filter_cons_True by done.
    replace (pre ++ s :: snapshot) with ((pre ++ [s]) ++ snapshot)
      by (by rewrite <- app_assoc).
    replace (pre ++ s :: filter has_cells snapshot)
      with ((pre ++ [s]) ++ filter has_cells snapshot) by (by rewrite <- app_assoc).
    apply IH. apply Forall_app. split; [done | by apply Forall_singleton].
Qed.

Lemma remove_stale_sentences_filter (ai : MinesweeperAI.t) :
  MinesweeperAI.remove_stale_sentences ai
  = Done (MinesweeperAI.set_knowledge (filter has_cells (MinesweeperAI.knowledge ai)) ai).
Proof.
  pose proof (remove_stale_fold (MinesweeperAI.knowledge ai) [] ai (Forall_nil_2 _)) as H.
  destruct ai; exact H.
Qed.

(** ** [refresh_knowledge] as a sequence of marks *)

Lemma refresh_sentence_marks (ai : MinesweeperAI.t) (s : Sentence.t) :
  MinesweeperAI.refresh_sentence ai s = foldl apply_mark ai (marks_of_sentence s).
Proof.
  unfold MinesweeperAI.refresh_sentence, marks_of_sentence.
  by rewrite foldl_app, !foldl_fmap.
Qed.

Lemma refresh_fold_marks (k : list Sentence.t) (ai : MinesweeperAI.t) :
  foldl MinesweeperAI.refresh_sentence ai k = foldl apply_mark ai (marks_of k).
Proof.
  revert ai. induction k as [|s k IH]; intros ai; [done |].
  unfold marks_of. rewrite bind_cons, foldl_app. simpl.
  rewrite IH. by rewrite refresh_sentence_marks.
Qed.

Lemma refresh_knowledge_marks (ai : MinesweeperAI.t) :
  MinesweeperAI.refresh_knowledge ai
  = foldl apply_mark ai (marks_of (MinesweeperAI.knowledge ai)).
Proof. apply refresh_fold_marks. Qed.

Lemma all_cells_cons (s : Sentence.t) (k : list Sentence.t) :
  all_cells (s :: k) = Sentence.cells s ∪ all_cells k.
Proof. done. Qed.

Lemma all_cells_app (k1 k2 : list Sentence.t) :
  all_cells (k1 ++ k2) = all_cells k1 ∪ all_cells k2.
Proof. unfold all_cells. by rewrite fmap_app, union_list_app_L. Qed.

Lemma elem_of_all_cells (c : Cell) (k : list Sentence.t) :
  c ∈ all_cells k ↔ ∃ s, s ∈ k ∧ c ∈ Sentence.cells s.
Proof.
  unfold all_cells. rewrite elem_of_union_list. split.
  - intros (X & HX & Hc). apply list_elem_of_fmap in HX as (s & -> & Hs). eauto.
  - intros (s & Hs & Hc). exists (Sentence.cells s). split; [| done].
    apply list_elem_of_fmap. eauto.
Qed.

Lemma all_cells_narrow (f : Sentence.t → Sentence.t) (c : Cell) (k : list Sentence.t) :
  (∀ s, Sentence.cells (f s) = Sentence.cells s ∖ {[c]}) →
  all_cells (f <$> k) = all_cells k ∖ {[c]}.
Proof.
  intros Hf. induction k as [|s k IH].
  - unfold all_cells. simpl. set_solver.
  - rewrite fmap_cons, !all_cells_cons, IH, Hf. set_solver.
Qed.

Lemma all_cells_apply_mark (ai : MinesweeperAI.t) (m : mark) :
  all_cells (MinesweeperAI.knowledge (apply_mark ai m))
  = all_cells (MinesweeperAI.knowledge ai) ∖ {[mark_cell m]}.
Proof.
  destruct m as [c|c]; simpl; apply all_cells_narrow; intros s.
  - apply Sentence_mark_mine_cells.
  - apply Sentence_mark_safe_cells.
Qed.

Lemma all_cells_marks (ms : list mark) (ai : MinesweeperAI.t) :
  all_cells (MinesweeperAI.knowledge (foldl apply_mark ai ms))
  = all_cells (MinesweeperAI.knowledge ai) ∖ list_to_set (mark_cell <$> ms).
Proof.
  revert ai. induction ms as [|m ms IH]; intros ai; simpl.
  - set_solver.
  - rewrite IH, all_cells_apply_mark. set_solver.
Qed.

Lemma marks_of_sentence_cell (m : mark) (s : Sentence.t) :
  m ∈ marks_of_sentence s → mark_cell m ∈ Sentence.cells s.
Proof.
  unfold marks_of_sentence, Sentence.known_mines, Sentence.known_safes.
  rewrite elem_of_app, !list_elem_of_fmap.
  intros [(c & -> & Hc)|(c & -> & Hc)]; simpl;
    apply elem_of_elements in Hc; case_bool_decide; set_solver.
Qed.

Lemma marks_of_cell (m : mark) (k : list Sentence.t) :
  m ∈ marks_of k → mark_cell m ∈ all_cells k.
Proof.
  unfold marks_of. rewrite list_elem_of_bind. intros (s & Hm & Hs).
  apply elem_of_all_cells. exists s. split; [done |].
  by apply marks_of_sentence_cell.
Qed.

(** Either [refresh_knowledge] makes no call at all, or some coordinate
    leaves the knowledge list for good. *)
Lemma refresh_dichotomy (ai : MinesweeperAI.t) :
  (marks_of (MinesweeperAI.knowledge ai) = [] ∧ MinesweeperAI.refresh_knowledge ai = ai)
  ∨ (size (all_cells (MinesweeperAI.knowledge (MinesweeperAI.refresh_knowledge ai)))
     < size (all_cells (MinesweeperAI.knowledge ai)))%nat.
Proof.
  rewrite refresh_knowledge_marks.
  destruct (marks_of (MinesweeperAI.knowledge ai)) as [|m ms] eqn:Hms.
  - left. done.
  - right. apply subset_size. rewrite all_cells_marks.
    assert (mark_cell m ∈ all_cells (MinesweeperAI.knowledge ai)) as Hm.
    { apply marks_of_cell. rewrite Hms. by left. }
    split; [set_solver |]. intros Hsub. specialize (Hsub _ Hm). set_solver.
Qed.

Lemma refresh_all_cells_subseteq (ai : MinesweeperAI.t) :
  all_cells (MinesweeperAI.knowledge (MinesweeperAI.refresh_knowledge ai))
  ⊆ all_cells (MinesweeperAI.knowledge ai).
Proof. rewrite refresh_knowledge_marks, all_cells_marks. set_solver. Qed.

Lemma marks_of_nil_not_pending (k : list Sentence.t) (s : Sentence.t) :
  marks_of k = [] → s ∈ k → ¬ pending s.
Proof.
  intros Hms Hs [Hcells Hcount].
  assert (marks_of_sentence s = []) as Hnil.
  { destruct (marks_of_sentence s) as [|m ms] eqn:E; [done |].
    assert (m ∈ marks_of k) as Hm.
    { unfold marks_of. apply list_elem_of_bind. exists s. rewrite E.
      split; [by left | done]. }
    rewrite Hms in Hm. by apply elem_of_nil in Hm. }
  unfold marks_of_sentence in Hnil. apply app_eq_nil in Hnil as [Hm Hsf].
  apply fmap_nil_inv in Hm. apply fmap_nil_inv in Hsf.
  apply elements_empty_inv, leibniz_equiv in Hm.
  apply elements_empty_inv, leibniz_equiv in Hsf.
  unfold Sentence.known_mines, Sentence.known_safes in *.
  destruct Hcount as [H0|Hfull].
  - rewrite bool_decide_eq_true_2 in Hsf by done. done.
  - rewrite bool_decide_eq_true_2 in Hm by done. done.
Qed.

(** ** [infer_new_sentences] *)

Lemma set_knowledge_id (ai : MinesweeperAI.t) :
  MinesweeperAI.set_knowledge (MinesweeperAI.knowledge ai) ai = ai.
Proof. by destruct ai. Qed.

Lemma set_knowledge_twice (k1 k2 : list Sentence.t) (ai : MinesweeperAI.t) :
  MinesweeperAI.set_knowledge k2 (MinesweeperAI.set_knowledge k1 ai)
  = MinesweeperAI.set_knowledge k2 ai.
Proof. done. Qed.

Lemma infer_pair_derived (a b : Sentence.t) (ai : MinesweeperAI.t) :
  MinesweeperAI.infer_pair a ai b =
  if bool_decide (Sentence.cells a ⊂ Sentence.cells b) then
    if contains (derived a b) (MinesweeperAI.knowledge ai) then ai
    else MinesweeperAI.set_knowledge (MinesweeperAI.knowledge ai ++ [derived a b]) ai
  else ai.
Proof. done. Qed.

Lemma infer_loops_pairs (k0 k : list Sentence.t) (ai : MinesweeperAI.t) :
  foldl (λ self a, foldl (MinesweeperAI.infer_pair a) self k0) ai k
  = foldl (λ self p, MinesweeperAI.infer_pair p.1 self p.2) ai (k ≫= λ a, pair a <$> k0).
Proof.
  revert ai. induction k as [|a k IH]; intros ai; [done |].
  rewrite bind_cons, foldl_app, foldl_fmap. simpl. apply IH.
Qed.

Lemma elem_of_pairs_of (a b : Sentence.t) (k : list Sentence.t) :
  (a, b) ∈ pairs_of k ↔ a ∈ k ∧ b ∈ k.
Proof.
  unfold pairs_of. rewrite list_elem_of_bind. split.
  - intros (a' & Hab & Ha). apply list_elem_of_fmap in Hab as (b' & [= -> ->] & Hb). done.
  - intros [Ha Hb]. exists a. split; [| done]. apply list_elem_of_fmap. eauto.
Qed.

Lemma infer_fold_post (ps : list (Sentence.t * Sentence.t)) (ai : MinesweeperAI.t) :
  ∃ added,
    foldl (λ self p, MinesweeperAI.infer_pair p.1 self p.2) ai ps
    = MinesweeperAI.set_knowledge (MinesweeperAI.knowledge ai ++ added) ai
    ∧ infer_post ps (MinesweeperAI.knowledge ai) added.
Proof.
  induction ps as [|[a b] ps IH] using rev_ind.
  - exists []. simpl. rewrite app_nil_r, set_knowledge_id. split; [done |].
    split; [by intros n ?%elem_of_nil | by intros a b ?%elem_of_nil
           | by intros n ?%elem_of_nil | constructor].
  - destruct IH as (added & Heq & [Hsound Hcompl Hfresh Hnodup]).
    rewrite foldl_snoc, Heq, infer_pair_derived. simpl.
    case_bool_decide as Hsub;
      [destruct (contains (derived a b) (MinesweeperAI.knowledge ai ++ added)) eqn:Hin |].
    + apply contains_elem_of in Hin.
      exists added. split; [done |]. split; [| | done | done].
      * intros n Hn. destruct (Hsound n Hn) as (a' & b' & ? & ? & ?).
        exists a', b'. rewrite elem_of_app. eauto.
      * intros a' b' [Hab|Hab%list_elem_of_singleton]%elem_of_app Hs; [by eauto |].
        by inversion Hab; subst.
    + apply contains_not_elem_of in Hin.
      exists (added ++ [derived a b]). rewrite <- app_assoc. split; [done |].
      split.
      * intros n [Hn|Hn%list_elem_of_singleton]%elem_of_app.
        -- destruct (Hsound n Hn) as (a' & b' & ? & ? & ?).
           exists a', b'. rewrite elem_of_app. eauto.
        -- exists a, b. rewrite elem_of_app, list_elem_of_singleton. eauto.
      * intros a' b' [Hab|Hab%list_elem_of_singleton]%elem_of_app Hs.
        -- rewrite app_assoc, elem_of_app. left. by eauto.
        -- inversion Hab; subst. rewrite !elem_of_app, list_elem_of_singleton. eauto.
      * intros n [Hn|Hn%list_elem_of_singleton]%elem_of_app; [by eauto |].
        subst n. intros Hk. apply Hin, elem_of_app. by left.
      * apply NoDup_app. split; [done |]. split; [| apply NoDup_singleton].
        intros n Hn ->%list_elem_of_singleton. apply Hin, elem_of_app. by right.
    + exists added. split; [done |]. split; [| | done | done].
      * intros n Hn. destruct (Hsound n Hn) as (a' & b' & ? & ? & ?).
        exists a', b'. rewrite elem_of_app. eauto.
      * intros a' b' [Hab|Hab%list_elem_of_singleton]%elem_of_app Hs; [by eauto |].
        inversion Hab; subst. done.
Qed.

Lemma infer_new_sentences_post (ai : MinesweeperAI.t) :
  ∃ added,
    MinesweeperAI.infer_new_sentences ai
    = MinesweeperAI.set_knowledge (MinesweeperAI.knowledge ai ++ added) ai
    ∧ infer_post (pairs_of (MinesweeperAI.knowledge ai)) (MinesweeperAI.knowledge ai) added.
Proof.
  unfold MinesweeperAI.infer_new_sentences. rewrite infer_loops_pairs.
  apply infer_fold_post.
Qed.

Lemma infer_pair_skip (a b : Sentence.t) (ai : MinesweeperAI.t) :
  ¬ Sentence.cells a ⊂ Sentence.cells b → MinesweeperAI.infer_pair a ai b = ai.
Proof. intros H. rewrite infer_pair_derived. by rewrite bool_decide_eq_false_2. Qed.

Lemma infer_pair_append (a b : Sentence.t) (ai : MinesweeperAI.t) :
  Sentence.cells a ⊂ Sentence.cells b →
  derived a b ∉ MinesweeperAI.knowledge ai →
  MinesweeperAI.infer_pair a ai b
  = MinesweeperAI.set_knowledge (MinesweeperAI.knowledge ai ++ [derived a b]) ai.
Proof.
  intros Hsub Hin. rewrite infer_pair_derived, bool_decide_eq_true_2 by done.
  by rewrite (proj2 (contains_not_elem_of _ _) Hin).
Qed.

(** C4: [infer_new_sentences] only appends to the knowledge list.  For every
    pair [a], [b] of the list it started from with the cells of [a] a strict
    subset of those of [b], the sentence with cells [b.cells - a.cells] and
    count [b.count - a.count] is in the list afterwards; what was appended
    are exactly such sentences that were not in the list before, each once.
    From [{p,q} = 1] and [{p,q,r} = 2] it appends [{r} = 1]. *)
Theorem infer_new_sentences_correct (ai : MinesweeperAI.t) :
  (∃ added,
     MinesweeperAI.infer_new_sentences ai
     = MinesweeperAI.set_knowledge (MinesweeperAI.knowledge ai ++ added) ai
     ∧ (∀ a b, a ∈ MinesweeperAI.knowledge ai → b ∈ MinesweeperAI.knowledge ai →
          Sentence.cells a ⊂ Sentence.cells b →
          Sentence.mk (Sentence.cells b ∖ Sentence.cells a)
                      (Sentence.count b - Sentence.count a)
          ∈ MinesweeperAI.knowledge ai ++ added)
     ∧ (∀ n, n ∈ added →
          (n ∉ MinesweeperAI.knowledge ai)
          ∧ ∃ a b, a ∈ MinesweeperAI.knowledge ai ∧ b ∈ MinesweeperAI.knowledge ai
                   ∧ Sentence.cells a ⊂ Sentence.cells b
                   ∧ n = Sentence.mk (Sentence.cells b ∖ Sentence.cells a)
                                     (Sentence.count b - Sentence.count a))
     ∧ NoDup added)
  ∧ (∀ p q r : Cell, p ≠ q → p ≠ r → q ≠ r →
       MinesweeperAI.knowledge ai
         = [Sentence.mk {[p; q]} 1; Sentence.mk {[p; q; r]} 2] →
       MinesweeperAI.knowledge (MinesweeperAI.infer_new_sentences ai)
         = [Sentence.mk {[p; q]} 1; Sentence.mk {[p; q; r]} 2; Sentence.mk {[r]} 1]).
Proof.
  split.
  - destruct (infer_new_sentences_post ai) as (added & Heq & [Hsound Hcompl Hfresh Hnodup]).
    exists added. split; [done |]. split; [| split; [| done]].
    + intros a b Ha Hb Hsub. apply (Hcompl a b); [| done].
      by apply elem_of_pairs_of.
    + intros n Hn. split; [by apply Hfresh |].
      destruct (Hsound n Hn) as (a & b & [Ha Hb]%elem_of_pairs_of & Hsub & ->).
      exists a, b. done.
  - intros p q r Hpq Hpr Hqr Hk.
    unfold MinesweeperAI.infer_new_sentences. rewrite Hk. cbn [foldl].
    set (A := Sentence.mk {[p; q]} 1). set (B := Sentence.mk {[p; q; r]} 2).
    assert (derived A B = Sentence.mk {[r]} 1) as Hd.
    { unfold derived, A, B. simpl. f_equal. set_solver. }
    rewrite (infer_pair_skip A A) by (simpl; set_solver).
    rewrite (infer_pair_append A B); [| simpl; set_solver |].
    2:{ rewrite Hk, Hd. fold A B. rewrite !elem_of_cons, elem_of_nil.
        intros [H|[H|[]]]; apply (f_equal Sentence.cells) in H; simpl in H;
          set_solver. }
    rewrite (infer_pair_skip B A) by (simpl; set_solver).
    rewrite (infer_pair_skip B B) by (simpl; set_solver).
    simpl. rewrite Hk, Hd. done.
Qed.

Lemma infer_new_sentences_correct_witness :
  MinesweeperAI.knowledge
    (MinesweeperAI.infer_new_sentences
       (MinesweeperAI.mk 3 3 ∅ ∅ ∅
          [Sentence.mk {[(0, 1); (1, 0)]} 1; Sentence.mk {[(0, 1); (1, 0); (1, 1)]} 2]))
  = [Sentence.mk {[(0, 1); (1, 0)]} 1; Sentence.mk {[(0, 1); (1, 0); (1, 1)]} 2;
     Sentence.mk {[(1, 1)]} 1].
Proof.
  apply (proj2 (infer_new_sentences_correct _) (0, 1) (1, 0) (1, 1));
    [intros H; discriminate H .. | reflexivity].
Defined.

(** ** One pass of the loop *)

Lemma add_knowledge_loop_pass (fuel : nat) (ai : MinesweeperAI.t) :
  MinesweeperAI.add_knowledge_loop (S fuel) ai =
  if knowledge_eqb (MinesweeperAI.knowledge (pass ai)) (MinesweeperAI.knowledge ai)
  then Done (MinesweeperAI.NoChange, pass ai)
  else if bool_decide (50 < length (MinesweeperAI.knowledge (pass ai)))%nat
  then Done (MinesweeperAI.SizeCap, pass ai)
  else MinesweeperAI.add_knowledge_loop fuel (pass ai).
Proof. simpl. by rewrite remove_stale_sentences_filter. Qed.

Lemma derived_has_cells (a b : Sentence.t) :
  Sentence.cells a ⊂ Sentence.cells b → has_cells (derived a b).
Proof.
  unfold has_cells, derived. simpl. intros [_ Hnsub] Hempty. apply Hnsub.
  intros c Hc. destruct (decide (c ∈ Sentence.cells a)) as [|Hna]; [done |].
  assert (c ∈ Sentence.cells b ∖ Sentence.cells a) as Hd by set_solver.
  rewrite Hempty in Hd. set_solver.
Qed.

Lemma derived_cells_subseteq (a b : Sentence.t) :
  Sentence.cells (derived a b) ⊆ Sentence.cells b.
Proof. unfold derived. simpl. set_solver. Qed.

(** What a pass does to the knowledge list: the sentences left by
    [refresh_knowledge] that still have cells, followed by new ones. *)
Lemma pass_knowledge (ai : MinesweeperAI.t) :
  let k := filter has_cells (MinesweeperAI.knowledge (MinesweeperAI.refresh_knowledge ai)) in
  ∃ added,
    pass ai = MinesweeperAI.set_knowledge (k ++ added) (MinesweeperAI.refresh_knowledge ai)
    ∧ infer_post (pairs_of k) k added.
Proof.
  intros k. unfold pass.
  destruct (infer_new_sentences_post
              (MinesweeperAI.set_knowledge k (MinesweeperAI.refresh_knowledge ai)))
    as (added & Heq & Hpost).
  exists added. split; [| done]. exact Heq.
Qed.

Lemma infer_post_has_cells ps k added :
  infer_post ps k added → Forall has_cells added.
Proof.
  intros [Hsound _ _ _]. apply Forall_forall. intros n Hn.
  destruct (Hsound n Hn) as (a & b & _ & Hsub & ->). by apply derived_has_cells.
Qed.

Lemma infer_post_all_cells k added :
  infer_post (pairs_of k) k added → all_cells added ⊆ all_cells k.
Proof.
  intros [Hsound _ _ _] c (n & Hn & Hc)%elem_of_all_cells.
  destruct (Hsound n Hn) as (a & b & [_ Hb]%elem_of_pairs_of & _ & ->).
  apply elem_of_all_cells. exists b. split; [done |].
  by apply (derived_cells_subseteq a b).
Qed.

Lemma all_cells_filter (k : list Sentence.t) :
  all_cells (filter has_cells k) ⊆ all_cells k.
Proof.
  intros c (s & [_ Hs]%list_elem_of_filter & Hc)%elem_of_all_cells.
  apply elem_of_all_cells. eauto.
Qed.

Lemma pass_has_cells (ai : MinesweeperAI.t) :
  Forall has_cells (MinesweeperAI.knowledge (pass ai)).
Proof.
  destruct (pass_knowledge ai) as (added & -> & Hpost). simpl.
  apply Forall_app. split; [| by eapply infer_post_has_cells].
  apply Forall_forall. by intros s [? _]%list_elem_of_filter.
Qed.

Lemma pass_all_cells (ai : MinesweeperAI.t) :
  all_cells (MinesweeperAI.knowledge (pass ai))
  ⊆ all_cells (MinesweeperAI.knowledge (MinesweeperAI.refresh_knowledge ai)).
Proof.
  destruct (pass_knowledge ai) as (added & -> & Hpost). simpl.
  rewrite all_cells_app. apply infer_post_all_cells in Hpost.
  pose proof (all_cells_filter
    (MinesweeperAI.knowledge (MinesweeperAI.refresh_knowledge ai))).
  set_solver.
Qed.

Lemma filter_has_cells_id (k : list Sentence.t) :
  Forall has_cells k → filter has_cells k = k.
Proof.
  induction 1 as [|s k Hs _ IH]; [done |].
  by rewrite filter_cons_True, IH.
Qed.

(** A pass either removes a coordinate from the knowledge list, or makes
    no mark and only appends sentences. *)
Lemma pass_dichotomy (ai : MinesweeperAI.t) :
  (size (all_cells (MinesweeperAI.knowledge (pass ai)))
   < size (all_cells (MinesweeperAI.knowledge ai)))%nat
  ∨ (marks_of (MinesweeperAI.knowledge ai) = []
     ∧ all_cells (MinesweeperAI.knowledge (pass ai)) ⊆ all_cells (MinesweeperAI.knowledge ai)
     ∧ ∃ added,
         pass ai = MinesweeperAI.set_knowledge
                     (filter has_cells (MinesweeperAI.knowledge ai) ++ added) ai
         ∧ Forall has_cells added).
Proof.
  pose proof (pass_all_cells ai) as Hsub.
  destruct (refresh_dichotomy ai) as [[Hms Hid]|Hlt].
  - right. split; [done |]. rewrite Hid in Hsub. split; [done |].
    destruct (pass_knowledge ai) as (added & Heq & Hpost).
    rewrite Hid in Heq. exists added. split; [done |].
    by eapply infer_post_has_cells.
  - left. apply subseteq_size in Hsub. lia.
Qed.

(** ** Termination of the loop of [add_knowledge] *)

Lemma pass_measure (ai : MinesweeperAI.t) :
  Forall has_cells (MinesweeperAI.knowledge ai) →
  MinesweeperAI.knowledge (pass ai) ≠ MinesweeperAI.knowledge ai →
  (length (MinesweeperAI.knowledge (pass ai)) ≤ 50)%nat →
  (loop_measure (pass ai) < loop_measure ai)%nat.
Proof.
  intros Hclean Hneq Hlen. unfold loop_measure.
  destruct (pass_dichotomy ai) as [Hlt|(_ & Hsub & added & Heq & _)]; [lia |].
  apply subseteq_size in Hsub.
  assert (MinesweeperAI.knowledge (pass ai) = MinesweeperAI.knowledge ai ++ added) as Hk.
  { rewrite Heq. cbn [MinesweeperAI.knowledge MinesweeperAI.set_knowledge].
    by rewrite filter_has_cells_id. }
  rewrite Hk in Hneq, Hlen, Hsub |- *. rewrite length_app in Hlen |- *.
  destruct added as [|n added].
  - by rewrite app_nil_r in Hneq.
  - cbn [length] in Hlen |- *. lia.
Qed.

Lemma loop_terminates_clean (fuel : nat) (ai : MinesweeperAI.t) :
  Forall has_cells (MinesweeperAI.knowledge ai) →
  (loop_measure ai < fuel)%nat →
  ∃ r, MinesweeperAI.add_knowledge_loop fuel ai = Done r.
Proof.
  revert ai. induction fuel as [|fuel IH]; intros ai Hclean Hlt; [lia |].
  rewrite add_knowledge_loop_pass.
  destruct (knowledge_eqb _ _) eqn:Heq; [by eauto |].
  case_bool_decide as Hcap; [by eauto |].
  apply knowledge_eqb_neq in Heq.
  apply IH; [apply pass_has_cells |].
  pose proof (pass_measure ai Hclean Heq). lia.
Qed.

Lemma loop_measure_first_pass (ai : MinesweeperAI.t) :
  (loop_measure (pass ai) + 2 < loop_budget ai)%nat.
Proof.
  unfold loop_measure, loop_budget.
  pose proof (pass_all_cells ai) as H1. pose proof (refresh_all_cells_subseteq ai) as H2.
  apply subseteq_size in H1. apply subseteq_size in H2. lia.
Qed.

Lemma loop_terminates (fuel : nat) (ai : MinesweeperAI.t) :
  (loop_budget ai ≤ fuel)%nat →
  ∃ r, MinesweeperAI.add_knowledge_loop fuel ai = Done r.
Proof.
  intros Hfuel. pose proof (loop_measure_first_pass ai) as Hm.
  destruct fuel as [|fuel]; [lia |].
  rewrite add_knowledge_loop_pass.
  destruct (knowledge_eqb _ _) eqn:Heq; [by eauto |].
  case_bool_decide as Hcap; [by eauto |].
  apply loop_terminates_clean; [apply pass_has_cells | lia].
Qed.

Lemma loop_fuel_S (fuel : nat) (ai : MinesweeperAI.t) r :
  MinesweeperAI.add_knowledge_loop fuel ai = Done r →
  MinesweeperAI.add_knowledge_loop (S fuel) ai = Done r.
Proof.
  revert ai. induction fuel as [|fuel IH]; intros ai; [done |].
  rewrite !(add_knowledge_loop_pass _ ai).
  destruct (knowledge_eqb _ _); [done |]. case_bool_decide; [done |]. apply IH.
Qed.

Lemma loop_fuel_mono (fuel fuel' : nat) (ai : MinesweeperAI.t) r :
  MinesweeperAI.add_knowledge_loop fuel ai = Done r → (fuel ≤ fuel')%nat →
  MinesweeperAI.add_knowledge_loop fuel' ai = Done r.
Proof. intros Hr. induction 1; [done | by apply loop_fuel_S]. Qed.

Lemma loop_no_error (fuel : nat) (ai : MinesweeperAI.t) :
  MinesweeperAI.add_knowledge_loop fuel ai ≠ ValueError.
Proof.
  revert ai. induction fuel as [|fuel IH]; intros ai; [done |].
  rewrite add_knowledge_loop_pass.
  destruct (knowledge_eqb _ _); [done |]. case_bool_decide; [done |]. apply IH.
Qed.

(** A pass that leaves the knowledge list as it was leaves the whole
    engine as it was. *)
Lemma pass_no_change (ai : MinesweeperAI.t) :
  MinesweeperAI.knowledge (pass ai) = MinesweeperAI.knowledge ai →
  pass ai = ai ∧ marks_of (MinesweeperAI.knowledge ai) = [].
Proof.
  intros Hk. destruct (pass_dichotomy ai) as [Hlt|(Hms & _ & added & Heq & _)].
  - rewrite Hk in Hlt. lia.
  - split; [| done]. rewrite Heq in Hk |- *. simpl in Hk.
    rewrite Hk. apply set_knowledge_id.
Qed.

(** How the loop was left: on [NoChange] the engine is a fixed point of the
    pass; on [SizeCap] the list has more than 50 sentences. *)
Lemma loop_exit_inv (fuel : nat) (ai : MinesweeperAI.t) e ai' :
  MinesweeperAI.add_knowledge_loop fuel ai = Done (e, ai') →
  match e with
  | MinesweeperAI.NoChange => pass ai' = ai'
  | MinesweeperAI.SizeCap => (50 < length (MinesweeperAI.knowledge ai'))%nat
  end.
Proof.
  revert ai. induction fuel as [|fuel IH]; intros ai; [done |].
  rewrite add_knowledge_loop_pass.
  destruct (knowledge_eqb _ _) eqn:Heq.
  - intros [= <- <-]. apply knowledge_eqb_eq, pass_no_change in Heq as [Hid _].
    by rewrite !Hid.
  - case_bool_decide as Hcap; [| apply IH]. by intros [= <- <-].
Qed.

Lemma add_knowledge_done (fuel : nat) (cell : Cell) (count : Z) (ai ai' : MinesweeperAI.t) :
  MinesweeperAI.add_knowledge fuel cell count ai = Done ai' ↔
  ∃ e, MinesweeperAI.add_knowledge_exit fuel cell count ai = Done (e, ai').
Proof.
  unfold MinesweeperAI.add_knowledge.
  destruct (MinesweeperAI.add_knowledge_exit fuel cell count ai) as [[e a]| |]; simpl.
  - split; [intros [= <-]; eauto | by intros (e' & [= _ <-])].
  - split; [done | by intros (? & ?)].
  - split; [done | by intros (? & ?)].
Qed.

(** C5: [add_knowledge] returns for every engine state and every argument.
    After at most [loop_budget] passes its loop has stopped, on the
    no-change test (the engine is then a fixed point of a pass) or on the
    size cap (the list then has more than 50 sentences); more fuel gives the
    same result. *)
Theorem add_knowledge_terminates (ai : MinesweeperAI.t) (cell : Cell) (count : Z) :
  ∃ e ai',
    (∀ fuel, (loop_budget (MinesweeperAI.add_sentence cell count ai) ≤ fuel)%nat →
       MinesweeperAI.add_knowledge_exit fuel cell count ai = Done (e, ai')
       ∧ MinesweeperAI.add_knowledge fuel cell count ai = Done ai')
    ∧ match e with
      | MinesweeperAI.NoChange => pass ai' = ai'
      | MinesweeperAI.SizeCap => (50 < length (MinesweeperAI.knowledge ai'))%nat
      end.
Proof.
  set (ai1 := MinesweeperAI.add_sentence cell count ai).
  destruct (loop_terminates (loop_budget ai1) ai1) as ([e ai'] & Hr); [done |].
  exists e, ai'. split.
  - intros fuel Hfuel.
    assert (MinesweeperAI.add_knowledge_exit fuel cell count ai = Done (e, ai')) as Hex.
    { unfold MinesweeperAI.add_knowledge_exit. by eapply loop_fuel_mono. }
    split; [done |]. apply add_knowledge_done. eauto.
  - by eapply loop_exit_inv.
Qed.

(** ** What the loop leaves alone, and what it can only enlarge *)

Lemma extends_refl (ai : MinesweeperAI.t) : extends ai ai.
Proof. by repeat split. Qed.

Lemma extends_trans (ai1 ai2 ai3 : MinesweeperAI.t) :
  extends ai1 ai2 → extends ai2 ai3 → extends ai1 ai3.
Proof.
  intros (? & ? & ? & ? & ?) (? & ? & ? & ? & ?).
  repeat split; try congruence; set_solver.
Qed.

Lemma extends_set_knowledge (k : list Sentence.t) (ai : MinesweeperAI.t) :
  extends ai (MinesweeperAI.set_knowledge k ai).
Proof. by repeat split. Qed.

Lemma extends_apply_mark (ai : MinesweeperAI.t) (m : mark) :
  extends ai (apply_mark ai m).
Proof. destruct m; repeat split; simpl; set_solver. Qed.

Lemma extends_marks (ms : list mark) (ai : MinesweeperAI.t) :
  extends ai (foldl apply_mark ai ms).
Proof.
  revert ai. induction ms as [|m ms IH]; intros ai; [apply extends_refl |].
  simpl. eapply extends_trans; [apply extends_apply_mark | apply IH].
Qed.

Lemma extends_pass (ai : MinesweeperAI.t) : extends ai (pass ai).
Proof.
  destruct (pass_knowledge ai) as (added & -> & _).
  eapply extends_trans; [| apply extends_set_knowledge].
  rewrite refresh_knowledge_marks. apply extends_marks.
Qed.

Lemma extends_loop (fuel : nat) (ai : MinesweeperAI.t) e ai' :
  MinesweeperAI.add_knowledge_loop fuel ai = Done (e, ai') → extends ai ai'.
Proof.
  revert ai. induction fuel as [|fuel IH]; intros ai; [done |].
  rewrite add_knowledge_loop_pass.
  destruct (knowledge_eqb _ _); [intros [= <- <-]; apply extends_pass |].
  case_bool_decide; [intros [= <- <-]; apply extends_pass |].
  intros Hr. eapply extends_trans; [apply extends_pass | by apply IH].
Qed.

(** ** Immediate facts at the no-change exit *)

(** C1 (amended): when [add_knowledge] leaves its loop on the no-change
    test, whatever the engine state and the arguments were, every sentence
    left in the knowledge list has cells, a count other than zero and a
    count other than the number of its cells. *)
Theorem no_change_exit_extracted
  (fuel : nat) (cell : Cell) (count : Z) (ai ai' : MinesweeperAI.t) :
  MinesweeperAI.add_knowledge_exit fuel cell count ai = Done (MinesweeperAI.NoChange, ai') →
  ∀ s, s ∈ MinesweeperAI.knowledge ai' →
    Sentence.cells s ≠ ∅
    ∧ Sentence.count s ≠ 0
    ∧ Sentence.count s ≠ Z.of_nat (size (Sentence.cells s)).
Proof.
  intros Hr s Hs. apply loop_exit_inv in Hr.
  assert (Sentence.cells s ≠ ∅) as Hcells.
  { pose proof (pass_has_cells ai') as Hclean. rewrite Hr in Hclean.
    by apply (proj1 (Forall_forall _ _) Hclean). }
  destruct (pass_no_change ai') as [_ Hms]; [by rewrite Hr |].
  pose proof (marks_of_nil_not_pending _ s Hms Hs) as Hnp. unfold pending in Hnp.
  split; [done |]. split; intros Hc; apply Hnp; auto.
Qed.

(** ** No validation of the arguments *)

(** C9 (amended): [add_knowledge] checks nothing.  For every engine state,
    every coordinate and every integer count it raises no error and
    returns, with the coordinate recorded as played and as safe. *)
Theorem add_knowledge_unchecked (ai : MinesweeperAI.t) (cell : Cell) (count : Z) :
  (∀ fuel, MinesweeperAI.add_knowledge fuel cell count ai ≠ ValueError)
  ∧ ∃ ai',
      (∀ fuel, (loop_budget (MinesweeperAI.add_sentence cell count ai) ≤ fuel)%nat →
         MinesweeperAI.add_knowledge fuel cell count ai = Done ai')
      ∧ cell ∈ MinesweeperAI.moves_made ai'
      ∧ cell ∈ MinesweeperAI.safes ai'.
Proof.
  set (ai1 := MinesweeperAI.add_sentence cell count ai). split.
  - intros fuel. unfold MinesweeperAI.add_knowledge, MinesweeperAI.add_knowledge_exit.
    pose proof (loop_no_error fuel ai1) as Hne. fold ai1.
    by destruct (MinesweeperAI.add_knowledge_loop fuel ai1).
  - destruct (loop_terminates (loop_budget ai1) ai1) as ([e ai'] & Hr); [done |].
    exists ai'. split.
    + intros fuel Hfuel. apply add_knowledge_done. exists e.
      unfold MinesweeperAI.add_knowledge_exit. by eapply loop_fuel_mono.
    + apply extends_loop in Hr as (_ & _ & Hmoves & _ & Hsafes).
      split; [rewrite Hmoves | apply Hsafes]; unfold ai1; simpl; set_solver.
Qed.

(** ** No sentence mentions a resolved coordinate *)

Lemma narrowed_init (height width : Z) : narrowed (MinesweeperAI.init height width).
Proof. intros s Hs. by apply elem_of_nil in Hs. Qed.

Lemma narrowed_mark_mine (c : Cell) (ai : MinesweeperAI.t) :
  narrowed ai → narrowed (MinesweeperAI.mark_mine c ai).
Proof.
  intros Hn s' Hs'. simpl in *.
  apply list_elem_of_fmap in Hs' as (s & -> & Hs). destruct (Hn s Hs) as [Hm Hsf].
  rewrite Sentence_mark_mine_cells. set_solver.
Qed.

Lemma narrowed_mark_safe (c : Cell) (ai : MinesweeperAI.t) :
  narrowed ai → narrowed (MinesweeperAI.mark_safe c ai).
Proof.
  intros Hn s' Hs'. simpl in *.
  apply list_elem_of_fmap in Hs' as (s & -> & Hs). destruct (Hn s Hs) as [Hm Hsf].
  rewrite Sentence_mark_safe_cells. set_solver.
Qed.

Lemma narrowed_marks (ms : list mark) (ai : MinesweeperAI.t) :
  narrowed ai → narrowed (foldl apply_mark ai ms).
Proof.
  revert ai. induction ms as [|[c|c] ms IH]; intros ai Hn; [done | |]; simpl; apply IH.
  - by apply narrowed_mark_mine.
  - by apply narrowed_mark_safe.
Qed.

Lemma narrowed_set_knowledge (k : list Sentence.t) (ai : MinesweeperAI.t) :
  narrowed ai → all_cells k ⊆ all_cells (MinesweeperAI.knowledge ai) →
  narrowed (MinesweeperAI.set_knowledge k ai).
Proof.
  intros Hn Hsub s Hs. simpl in *.
  assert (∀ c, c ∈ Sentence.cells s → ∃ s0, s0 ∈ MinesweeperAI.knowledge ai ∧ c ∈ Sentence.cells s0) as Hc.
  { intros c Hc. apply elem_of_all_cells, Hsub, elem_of_all_cells. eauto. }
  split; intros c Hcs Hcm; destruct (Hc c Hcs) as (s0 & Hs0 & Hc0);
    destruct (Hn s0 Hs0); set_solver.
Qed.

Lemma narrowed_refresh (ai : MinesweeperAI.t) :
  narrowed ai → narrowed (MinesweeperAI.refresh_knowledge ai).
Proof. rewrite refresh_knowledge_marks. apply narrowed_marks. Qed.

Lemma narrowed_remove_stale (ai ai' : MinesweeperAI.t) :
  MinesweeperAI.remove_stale_sentences ai = Done ai' → narrowed ai → narrowed ai'.
Proof.
  rewrite remove_stale_sentences_filter. intros [= <-] Hn.
  apply narrowed_set_knowledge; [done | apply all_cells_filter].
Qed.

Lemma narrowed_infer (ai : MinesweeperAI.t) :
  narrowed ai → narrowed (MinesweeperAI.infer_new_sentences ai).
Proof.
  intros Hn. destruct (infer_new_sentences_post ai) as (added & -> & Hpost).
  apply narrowed_set_knowledge; [done |].
  rewrite all_cells_app. apply infer_post_all_cells in Hpost. set_solver.
Qed.

Lemma narrowed_pass (ai : MinesweeperAI.t) : narrowed ai → narrowed (pass ai).
Proof.
  intros Hn. pose proof (pass_all_cells ai) as Hsub.
  destruct (pass_knowledge ai) as (added & Heq & _). rewrite Heq in Hsub |- *.
  apply narrowed_set_knowledge; [| done]. by apply narrowed_refresh.
Qed.

Lemma narrowed_loop (fuel : nat) (ai : MinesweeperAI.t) e ai' :
  MinesweeperAI.add_knowledge_loop fuel ai = Done (e, ai') → narrowed ai → narrowed ai'.
Proof.
  revert ai. induction fuel as [|fuel IH]; intros ai; [done |].
  rewrite add_knowledge_loop_pass.
  destruct (knowledge_eqb _ _); [intros [= <- <-]; apply narrowed_pass |].
  case_bool_decide; [intros [= <- <-]; apply narrowed_pass |].
  intros Hr Hn. eapply IH; [done | by apply narrowed_pass].
Qed.

Lemma fold_mark_mine_cells (l : list Cell) (s : Sentence.t) :
  Sentence.cells (foldl (λ s c, Sentence.mark_mine c s) s l)
  = Sentence.cells s ∖ list_to_set l.
Proof.
  revert s. induction l as [|c l IH]; intros s; simpl; [set_solver |].
  rewrite IH, Sentence_mark_mine_cells. set_solver.
Qed.

Lemma fold_mark_safe_cells (l : list Cell) (s : Sentence.t) :
  Sentence.cells (foldl (λ s c, Sentence.mark_safe c s) s l)
  = Sentence.cells s ∖ list_to_set l.
Proof.
  revert s. induction l as [|c l IH]; intros s; simpl; [set_solver |].
  rewrite IH, Sentence_mark_safe_cells. set_solver.
Qed.

(** The sentence [add_knowledge] appends, before its loop runs. *)
Lemma add_sentence_knowledge (cell : Cell) (count : Z) (ai : MinesweeperAI.t) :
  ∃ n,
    MinesweeperAI.knowledge (MinesweeperAI.add_sentence cell count ai)
    = (Sentence.mark_safe cell <$> MinesweeperAI.knowledge ai) ++ [n]
    ∧ Sentence.cells n
      = MinesweeperAI.neighbouring_cells ai cell
        ∖ MinesweeperAI.mines ai ∖ (MinesweeperAI.safes ai ∪ {[cell]}).
Proof.
  eexists. split; [reflexivity |].
  rewrite fold_mark_safe_cells, fold_mark_mine_cells, !list_to_set_elements_L.
  done.
Qed.

Lemma narrowed_add_sentence (cell : Cell) (count : Z) (ai : MinesweeperAI.t) :
  narrowed ai → narrowed (MinesweeperAI.add_sentence cell count ai).
Proof.
  intros Hn s Hs.
  destruct (add_sentence_knowledge cell count ai) as (n & Hk & Hcells).
  rewrite Hk in Hs. apply elem_of_app in Hs as [Hs|Hs%list_elem_of_singleton].
  - apply (narrowed_mark_safe cell ai Hn). done.
  - subst s. rewrite Hcells. simpl. set_solver.
Qed.

Lemma narrowed_add_knowledge (fuel : nat) (cell : Cell) (count : Z) (ai ai' : MinesweeperAI.t) :
  narrowed ai → MinesweeperAI.add_knowledge fuel cell count ai = Done ai' → narrowed ai'.
Proof.
  intros Hn (e & Hr)%add_knowledge_done.
  eapply narrowed_loop; [exact Hr |]. by apply narrowed_add_sentence.
Qed.

Lemma reachable_narrowed (ai : MinesweeperAI.t) : reachable ai → narrowed ai.
Proof.
  induction 1 as [h w|fuel cell count ai ai' _ IH Hr|cell ai _ IH|cell ai _ IH
                  |ai _ IH|ai ai' _ IH Hr|ai _ IH].
  - apply narrowed_init.
  - by eapply narrowed_add_knowledge.
  - by apply narrowed_mark_mine.
  - by apply narrowed_mark_safe.
  - by apply narrowed_refresh.
  - by eapply narrowed_remove_stale.
  - by apply narrowed_infer.
Qed.

(** C10: on an engine built from a fresh one by any calls of
    [add_knowledge], [mark_mine] and [mark_safe], a call of [add_knowledge]
    returns, and when it has returned no sentence of the knowledge list
    mentions a coordinate of [mines] or of [safes]. *)
Theorem add_knowledge_narrowed (ai : MinesweeperAI.t) (cell : Cell) (count : Z) :
  reachable ai →
  (∃ fuel ai', MinesweeperAI.add_knowledge fuel cell count ai = Done ai')
  ∧ ∀ fuel ai', MinesweeperAI.add_knowledge fuel cell count ai = Done ai' →
      ∀ s, s ∈ MinesweeperAI.knowledge ai' →
        Sentence.cells s ## MinesweeperAI.mines ai'
        ∧ Sentence.cells s ## MinesweeperAI.safes ai'.
Proof.
  intros Hreach. split.
  - destruct (loop_terminates _ (MinesweeperAI.add_sentence cell count ai) (reflexivity _))
      as ([e ai'] & Hr).
    eexists _, ai'. apply add_knowledge_done. exists e. exact Hr.
  - intros fuel ai' Hr.
    apply (narrowed_add_knowledge fuel cell count ai ai'); [| done].
    by apply reachable_narrowed.
Qed.

(** ** Agreement with the board under honest play *)

Section Board.

Variable g : Minesweeper.t.

Lemma counts_mark_mine (c : Cell) (s : Sentence.t) :
  c ∈ Minesweeper.mines g → counts g s → counts g (Sentence.mark_mine c s).
Proof.
  unfold counts, Sentence.mark_mine. intros Hc Hs.
  case_bool_decide as Hin; [| done]. simpl. rewrite Hs.
  replace ((Sentence.cells s ∖ {[c]}) ∩ Minesweeper.mines g)
    with ((Sentence.cells s ∩ Minesweeper.mines g) ∖ {[c]}) by set_solver.
  assert ({[c]} ⊆ Sentence.cells s ∩ Minesweeper.mines g) as Hsub by set_solver.
  rewrite (size_difference (C:=gset Cell) _ _ Hsub), size_singleton.
  assert (size (Sentence.cells s ∩ Minesweeper.mines g) ≠ 0%nat) as Hpos.
  { intros H0. apply size_empty_inv in H0. set_solver. }
  lia.
Qed.

Lemma counts_mark_safe (c : Cell) (s : Sentence.t) :
  c ∉ Minesweeper.mines g → counts g s → counts g (Sentence.mark_safe c s).
Proof.
  unfold counts, Sentence.mark_safe. intros Hc Hs.
  case_bool_decide as Hin; [| done]. simpl. rewrite Hs.
  do 2 f_equal. set_solver.
Qed.

Lemma counts_derived (a b : Sentence.t) :
  Sentence.cells a ⊆ Sentence.cells b →
  counts g a → counts g b → counts g (derived a b).
Proof.
  unfold counts, derived. intros Hsub Ha Hb. simpl. rewrite Ha, Hb.
  replace ((Sentence.cells b ∖ Sentence.cells a) ∩ Minesweeper.mines g)
    with ((Sentence.cells b ∩ Minesweeper.mines g)
            ∖ (Sentence.cells a ∩ Minesweeper.mines g)) by set_solver.
  assert (Sentence.cells a ∩ Minesweeper.mines g
          ⊆ Sentence.cells b ∩ Minesweeper.mines g) as Hsub' by set_solver.
  rewrite (size_difference (C:=gset Cell) _ _ Hsub').
  apply subseteq_size in Hsub'. lia.
Qed.

Lemma counts_bounds (s : Sentence.t) :
  counts g s → 0 ≤ Sentence.count s ≤ Z.of_nat (size (Sentence.cells s)).
Proof.
  unfold counts. intros ->.
  assert (size (Sentence.cells s ∩ Minesweeper.mines g) ≤ size (Sentence.cells s))%nat
    by (apply subseteq_size; set_solver).
  lia.
Qed.

Lemma counts_marks_true (s : Sentence.t) (m : mark) :
  counts g s → m ∈ marks_of_sentence s → mark_true g m.
Proof.
  unfold counts, marks_of_sentence, Sentence.known_mines, Sentence.known_safes.
  intros Hs. rewrite elem_of_app, !list_elem_of_fmap.
  intros [(c & -> & Hc)|(c & -> & Hc)]; simpl; apply elem_of_elements in Hc;
    case_bool_decide as Hcount; try set_solver.
  - assert (Sentence.cells s ∩ Minesweeper.mines g = Sentence.cells s) as Heq.
    { apply set_subseteq_size_eq; [set_solver | lia]. }
    set_solver.
  - assert (Sentence.cells s ∩ Minesweeper.mines g = ∅) as Heq.
    { apply leibniz_equiv, size_empty_inv. lia. }
    set_solver.
Qed.

Lemma agrees_apply_mark (ai : MinesweeperAI.t) (m : mark) :
  mark_true g m → agrees g ai → agrees g (apply_mark ai m).
Proof.
  intros Hm (Hmines & Hsafes & Hk). destruct m as [c|c]; simpl in *.
  - split; [set_solver |]. split; [done |].
    intros s' (s & -> & Hs)%list_elem_of_fmap. apply counts_mark_mine; auto.
  - split; [done |]. split; [set_solver |].
    intros s' (s & -> & Hs)%list_elem_of_fmap. apply counts_mark_safe; auto.
Qed.

Lemma agrees_marks (ms : list mark) (ai : MinesweeperAI.t) :
  Forall (mark_true g) ms → agrees g ai → agrees g (foldl apply_mark ai ms).
Proof.
  intros Hms. revert ai. induction Hms as [|m ms Hm _ IH]; intros ai Ha; [done |].
  simpl. apply IH. by apply agrees_apply_mark.
Qed.

Lemma agrees_refresh (ai : MinesweeperAI.t) :
  agrees g ai → agrees g (MinesweeperAI.refresh_knowledge ai).
Proof.
  intros Ha. rewrite refresh_knowledge_marks. apply agrees_marks; [| done].
  apply Forall_forall. intros m (s & Hm & Hs)%list_elem_of_bind.
  destruct Ha as (_ & _ & Hk). by apply (counts_marks_true s); [apply Hk |].
Qed.

Lemma agrees_remove_stale (ai ai' : MinesweeperAI.t) :
  MinesweeperAI.remove_stale_sentences ai = Done ai' → agrees g ai → agrees g ai'.
Proof.
  rewrite remove_stale_sentences_filter. intros [= <-] (Hmines & Hsafes & Hk).
  split; [done |]. split; [done |]. simpl.
  intros s [_ Hs]%list_elem_of_filter. by apply Hk.
Qed.

Lemma agrees_infer (ai : MinesweeperAI.t) :
  agrees g ai → agrees g (MinesweeperAI.infer_new_sentences ai).
Proof.
  intros (Hmines & Hsafes & Hk).
  destruct (infer_new_sentences_post ai) as (added & -> & [Hsound _ _ _]).
  split; [done |]. split; [done |]. simpl.
  intros s [Hs|Hs]%elem_of_app; [by apply Hk |].
  destruct (Hsound s Hs) as (a & b & [Ha Hb]%elem_of_pairs_of & [Hsub _] & ->).
  apply counts_derived; auto.
Qed.

Lemma agrees_pass (ai : MinesweeperAI.t) : agrees g ai → agrees g (pass ai).
Proof.
  intros Ha. unfold pass. apply agrees_infer.
  apply (agrees_remove_stale (MinesweeperAI.refresh_knowledge ai));
    [apply remove_stale_sentences_filter | by apply agrees_refresh].
Qed.

Lemma agrees_loop (fuel : nat) (ai : MinesweeperAI.t) e ai' :
  MinesweeperAI.add_knowledge_loop fuel ai = Done (e, ai') → agrees g ai → agrees g ai'.
Proof.
  revert ai. induction fuel as [|fuel IH]; intros ai; [done |].
  rewrite add_knowledge_loop_pass.
  destruct (knowledge_eqb _ _); [intros [= <- <-]; apply agrees_pass |].
  case_bool_decide; [intros [= <- <-]; apply agrees_pass |].
  intros Hr Ha. eapply IH; [done | by apply agrees_pass].
Qed.

Lemma NoDup_window (cell : Cell) : NoDup (window cell).
Proof.
  destruct cell as [r c]. unfold window. simpl.
  repeat (apply NoDup_cons; split;
          [rewrite ?elem_of_cons, elem_of_nil; intros H;
           repeat (destruct H as [H|H]); try done; inversion H; lia |]).
  apply NoDup_nil. done.
Qed.

Lemma neighbouring_cells_window (ai : MinesweeperAI.t) (cell : Cell) :
  MinesweeperAI.neighbouring_cells ai cell
  = list_to_set (filter (neighbour_ok (MinesweeperAI.height ai) (MinesweeperAI.width ai) cell)
                        (window cell)).
Proof.
  assert (∀ l (X : gset Cell),
    foldl (λ acc p,
      if in_grid (MinesweeperAI.height ai) (MinesweeperAI.width ai) p.1 p.2 then
        if bool_decide (p = cell) then acc else acc ∪ {[p]}
      else acc) X l
    = X ∪ list_to_set (filter (neighbour_ok (MinesweeperAI.height ai)
                                 (MinesweeperAI.width ai) cell) l)) as Hfold.
  { induction l as [|p l IH]; intros X; simpl; [set_solver |].
    rewrite IH.
    destruct (in_grid _ _ _ _) eqn:Hg; [case_bool_decide as Hp |].
    - rewrite filter_cons_False by (unfold neighbour_ok; intuition congruence). done.
    - rewrite filter_cons_True by (unfold neighbour_ok; intuition congruence).
      rewrite list_to_set_cons. set_solver.
    - rewrite filter_cons_False by (unfold neighbour_ok; intuition congruence). done. }
  rewrite <- (left_id_L ∅ (∪) (list_to_set _)), <- Hfold.
  destruct cell as [r c]. reflexivity.
Qed.

Lemma nearby_mines_window (cell : Cell) :
  Minesweeper.nearby_mines g cell
  = Z.of_nat (length (filter
      (λ p, neighbour_ok (Minesweeper.height g) (Minesweeper.width g) cell p
            ∧ p ∈ Minesweeper.mines g)
      (window cell))).
Proof.
  assert (∀ l (z : Z),
    foldl (λ count p,
      if bool_decide (p = cell) then count
      else if in_grid (Minesweeper.height g) (Minesweeper.width g) p.1 p.2 then
        if Minesweeper.is_mine g p then count + 1 else count
      else count) z l
    = z + Z.of_nat (length (filter
        (λ p, neighbour_ok (Minesweeper.height g) (Minesweeper.width g) cell p
              ∧ p ∈ Minesweeper.mines g) l))) as Hfold.
  { induction l as [|p l IH]; intros z; simpl; [lia |].
    rewrite IH. unfold Minesweeper.is_mine.
    case_bool_decide as Hp; [| destruct (in_grid _ _ _ _) eqn:Hg; [case_bool_decide as Hm |]].
    - rewrite filter_cons_False by (unfold neighbour_ok; intuition congruence). done.
    - rewrite filter_cons_True by (unfold neighbour_ok; intuition congruence). simpl. lia.
    - rewrite filter_cons_False by (unfold neighbour_ok; intuition congruence). done.
    - rewrite filter_cons_False by (unfold neighbour_ok; intuition congruence). done. }
  rewrite <- (Z.add_0_l (Z.of_nat _)), <- Hfold.
  destruct cell as [r c]. reflexivity.
Qed.

(** The count an honest board reports for [cell] is the number of mines
    among the cells [add_knowledge] collects around it. *)
Lemma nearby_mines_neighbours (ai : MinesweeperAI.t) (cell : Cell) :
  sized g ai →
  counts g (Sentence.mk (MinesweeperAI.neighbouring_cells ai cell)
                        (Minesweeper.nearby_mines g cell)).
Proof.
  intros [Hh Hw]. unfold counts. simpl.
  rewrite nearby_mines_window, neighbouring_cells_window, Hh, Hw. f_equal.
  rewrite <- (size_list_to_set (C:=gset Cell))
    by (apply NoDup_filter, NoDup_window).
  f_equal. apply set_eq. intros p.
  rewrite elem_of_intersection, !elem_of_list_to_set, !list_elem_of_filter.
  naive_solver.
Qed.

Lemma counts_fold_mark_mine (l : list Cell) (s : Sentence.t) :
  Forall (λ c, c ∈ Minesweeper.mines g) l → counts g s →
  counts g (foldl (λ s c, Sentence.mark_mine c s) s l).
Proof.
  intros Hl. revert s. induction Hl as [|c l Hc _ IH]; intros s Hs; [done |].
  simpl. apply IH. by apply counts_mark_mine.
Qed.

Lemma counts_fold_mark_safe (l : list Cell) (s : Sentence.t) :
  Forall (λ c, c ∉ Minesweeper.mines g) l → counts g s →
  counts g (foldl (λ s c, Sentence.mark_safe c s) s l).
Proof.
  intros Hl. revert s. induction Hl as [|c l Hc _ IH]; intros s Hs; [done |].
  simpl. apply IH. by apply counts_mark_safe.
Qed.

Lemma safe_reveal_not_mine (cell : Cell) :
  safe_reveal g cell = true → cell ∉ Minesweeper.mines g.
Proof.
  unfold safe_reveal, Minesweeper.is_mine.
  intros [_ Hm%negb_true_iff]%andb_true_iff. by apply bool_decide_eq_false in Hm.
Qed.

Lemma add_sentence_unfold (cell : Cell) (count : Z) (ai : MinesweeperAI.t) :
  MinesweeperAI.add_sentence cell count ai
  = MinesweeperAI.mk (MinesweeperAI.height ai) (MinesweeperAI.width ai)
      (MinesweeperAI.moves_made ai ∪ {[cell]}) (MinesweeperAI.mines ai)
      (MinesweeperAI.safes ai ∪ {[cell]})
      ((Sentence.mark_safe cell <$> MinesweeperAI.knowledge ai)
       ++ [foldl (λ s c, Sentence.mark_safe c s)
             (foldl (λ s c, Sentence.mark_mine c s)
                (Sentence.mk (MinesweeperAI.neighbouring_cells ai cell) count)
                (elements (MinesweeperAI.mines ai)))
             (elements (MinesweeperAI.safes ai ∪ {[cell]}))]).
Proof. reflexivity. Qed.

Lemma agrees_add_sentence (cell : Cell) (count : Z) (ai : MinesweeperAI.t) :
  cell ∉ Minesweeper.mines g → agrees g ai →
  counts g (Sentence.mk (MinesweeperAI.neighbouring_cells ai cell) count) →
  agrees g (MinesweeperAI.add_sentence cell count ai).
Proof.
  intros Hcell (Hmines & Hsafes & Hk) Hnew.
  rewrite add_sentence_unfold.
  generalize dependent (Sentence.mk (MinesweeperAI.neighbouring_cells ai cell) count).
  intros new Hnew.
  split; [done |]. split; [cbn [MinesweeperAI.safes]; set_solver |].
  cbn [MinesweeperAI.knowledge].
  intros s [Hs|Hs%list_elem_of_singleton]%elem_of_app.
  - apply list_elem_of_fmap in Hs as (s0 & -> & Hs0). apply counts_mark_safe; auto.
  - rewrite Hs. apply counts_fold_mark_safe.
    { apply Forall_forall. intros c Hc%elem_of_elements. set_solver. }
    apply counts_fold_mark_mine; [| done].
    apply Forall_forall. intros c Hc%elem_of_elements. set_solver.
Qed.

Lemma sized_extends (ai ai' : MinesweeperAI.t) :
  extends ai ai' → sized g ai → sized g ai'.
Proof. intros (Hh & Hw & _) [? ?]. split; congruence. Qed.

Lemma honest_agrees (ai : MinesweeperAI.t) :
  honest g ai → sized g ai ∧ agrees g ai.
Proof.
  induction 1 as [|fuel cell ai ai' _ [Hsz Ha] Hsafe Hr
                  |cell ai _ [Hsz Ha] Hm|cell ai _ [Hsz Ha] Hm|rnd ai _ IH|rnd ai _ IH
                  |ai _ [Hsz Ha]|ai ai' _ [Hsz Ha] Hr|ai _ [Hsz Ha]].
  - split; [done |]. split; [set_solver |]. split; [set_solver |].
    by intros s Hs%elem_of_nil.
  - apply add_knowledge_done in Hr as (e & Hr).
    unfold MinesweeperAI.add_knowledge_exit in Hr. split.
    + apply extends_loop in Hr. by apply (sized_extends _ _ Hr).
    + eapply agrees_loop; [exact Hr |].
      apply agrees_add_sentence;
        [by apply safe_reveal_not_mine | done | by apply nearby_mines_neighbours].
  - split; [done |]. apply (agrees_apply_mark ai (MarkMine cell)); [| done].
    by apply bool_decide_eq_true in Hm.
  - split; [done |]. apply (agrees_apply_mark ai (MarkSafe cell)); [| done].
    by apply bool_decide_eq_false in Hm.
  - by rewrite make_safe_move_state.
  - by rewrite make_random_move_state.
  - split; [| by apply agrees_refresh].
    apply (sized_extends ai); [| done].
    rewrite refresh_knowledge_marks. apply extends_marks.
  - split; [| by eapply agrees_remove_stale].
    rewrite remove_stale_sentences_filter in Hr. injection Hr as <-.
    apply (sized_extends ai); [apply extends_set_knowledge | done].
  - split; [| by apply agrees_infer].
    destruct (infer_new_sentences_post ai) as (added & -> & _).
    apply (sized_extends ai); [apply extends_set_knowledge | done].
Qed.

End Board.

(** C2: under honest play against a fixed board, after every call of a
    public operation of the engine each sentence [s] of the knowledge list
    has [0 <= s.count <= len(s.cells)]. *)
Theorem honest_count_bounds (g : Minesweeper.t) (ai : MinesweeperAI.t) :
  honest g ai →
  ∀ s, s ∈ MinesweeperAI.knowledge ai →
    0 ≤ Sentence.count s ≤ Z.of_nat (size (Sentence.cells s)).
Proof.
  intros [_ (_ & _ & Hk)]%honest_agrees s Hs. apply (counts_bounds g), Hk, Hs.
Qed.

(** C3 (amended): under honest play against a fixed board, where
    [add_knowledge] is called for cells that are not mines with the board's
    count, [mark_mine] for mines and [mark_safe] for cells that are not
    mines, the sets [mines] and [safes] stay disjoint. *)
Theorem honest_mines_safes_disjoint (g : Minesweeper.t) (ai : MinesweeperAI.t) :
  honest g ai →
  MinesweeperAI.mines ai ∩ MinesweeperAI.safes ai = ∅.
Proof.
  intros [_ (Hmines & Hsafes & _)]%honest_agrees. set_solver.
Qed.

(** ** Honest play stays honest *)

Lemma play_honest (fuel : nat) (g : Minesweeper.t) (reveals : list Cell)
  (ai ai' : MinesweeperAI.t) :
  forallb (safe_reveal g) reveals = true →
  honest g ai → play fuel g reveals ai = Done ai' → honest g ai'.
Proof.
  revert ai. induction reveals as [|cell reveals IH]; intros ai Hsafe Hai; simpl.
  - by intros [= <-].
  - simpl in Hsafe. apply andb_true_iff in Hsafe as [Hcell Hrest].
    destruct (MinesweeperAI.add_knowledge fuel cell _ ai) as [ai1| |] eqn:Hr; try done.
    simpl. apply IH; [done |]. by eapply honest_add_knowledge.
Qed.

(** ** Concrete runs *)

Lemma no_change_exit_extracted_witness :
  let s := Sentence.mk {[ (0, 1); (1, 0); (1, 1) ]} 1 in
  Sentence.cells s ≠ ∅
  ∧ Sentence.count s ≠ 0
  ∧ Sentence.count s ≠ Z.of_nat (size (Sentence.cells s)).
Proof.
  intros s.
  apply (no_change_exit_extracted 3 (0, 0) 1 (MinesweeperAI.init 3 3)
           (MinesweeperAI.mk 3 3 {[ (0, 0) ]} ∅ {[ (0, 0) ]} [s])).
  - vm_compute. reflexivity.
  - apply list_elem_of_here.
Defined.

(** C1, as stated, fails at the size cap: after the honest reveals of
    [cap_reveals] on [cap_board], the honest reveal of column 203 leaves the
    loop on the size cap with the sentence [{(0, 200)} = 0] in the knowledge
    list, while [(0, 200)] is not in [safes]. *)
Lemma size_cap_exit_counterexample :
  forallb (safe_reveal cap_board) (cap_reveals ++ [(0, 203)]) = true
  ∧ play 10 cap_board cap_reveals (MinesweeperAI.init 1 204) = Done cap_before
  ∧ MinesweeperAI.add_knowledge_exit 10 (0, 203)
      (Minesweeper.nearby_mines cap_board (0, 203)) cap_before
    = Done (MinesweeperAI.SizeCap, cap_after)
  ∧ honest cap_board cap_after
  ∧ Sentence.mk {[ (0, 200) ]} 0 ∈ MinesweeperAI.knowledge cap_after
  ∧ ¬ Sentence.cells (Sentence.mk {[ (0, 200) ]} 0) ⊆ MinesweeperAI.safes cap_after.
Proof.
  assert (forallb (safe_reveal cap_board) (cap_reveals ++ [(0, 203)]) = true) as Hsafe
    by (vm_compute; reflexivity).
  assert (play 10 cap_board cap_reveals (MinesweeperAI.init 1 204) = Done cap_before)
    as Hplay by (vm_compute; reflexivity).
  assert (MinesweeperAI.add_knowledge_exit 10 (0, 203)
            (Minesweeper.nearby_mines cap_board (0, 203)) cap_before
          = Done (MinesweeperAI.SizeCap, cap_after)) as Hexit
    by (vm_compute; reflexivity).
  split; [done |]. split; [done |]. split; [done |]. split; [| split].
  - rewrite forallb_app in Hsafe. apply andb_true_iff in Hsafe as [Hsafe1 Hsafe2].
    apply (honest_add_knowledge cap_board 10 (0, 203) cap_before).
    + by apply (play_honest 10 cap_board cap_reveals (MinesweeperAI.init 1 204));
        [| apply honest_init |].
    + by apply andb_true_iff in Hsafe2 as [? _].
    + apply add_knowledge_done. eauto.
  - apply contains_elem_of. vm_compute. reflexivity.
  - cbn [Sentence.cells]. intros Hsub.
    assert (bool_decide ((0, 200) ∈ MinesweeperAI.safes cap_after) = false) as Hnot
      by (vm_compute; reflexivity).
    apply bool_decide_eq_false in Hnot. apply Hnot, Hsub.
    by apply elem_of_singleton.
Qed.

Lemma honest_count_bounds_witness :
  let s := Sentence.mk {[ (0, 1); (1, 0); (1, 1) ]} 1 in
  0 ≤ Sentence.count s ≤ Z.of_nat (size (Sentence.cells s)).
Proof.
  intros s.
  apply (honest_count_bounds (Minesweeper.mk 3 3 {[ (1, 1) ]})
           (MinesweeperAI.mk 3 3 {[ (0, 0) ]} ∅ {[ (0, 0) ]} [s])).
  - apply (honest_add_knowledge _ 3 (0, 0) (MinesweeperAI.init 3 3)).
    + apply (honest_init (Minesweeper.mk 3 3 {[ (1, 1) ]})).
    + vm_compute. reflexivity.
    + vm_compute. reflexivity.
  - apply list_elem_of_here.
Defined.

Lemma honest_mines_safes_disjoint_witness :
  MinesweeperAI.mines (MinesweeperAI.mk 1 2 {[ (0, 0) ]} {[ (0, 1) ]} {[ (0, 0) ]} [])
  ∩ MinesweeperAI.safes (MinesweeperAI.mk 1 2 {[ (0, 0) ]} {[ (0, 1) ]} {[ (0, 0) ]} [])
  = ∅.
Proof.
  apply (honest_mines_safes_disjoint (Minesweeper.mk 1 2 {[ (0, 1) ]})).
  apply (honest_add_knowledge _ 3 (0, 0) (MinesweeperAI.init 1 2)).
  - apply (honest_init (Minesweeper.mk 1 2 {[ (0, 1) ]})).
  - vm_compute. reflexivity.
  - vm_compute. reflexivity.
Defined.

(** C3, as stated, fails: [mark_mine] and [mark_safe] of one coordinate put
    it in both sets, and so do two calls of [add_knowledge] on a 2 by 2
    board, the first with count 3 and the second on a cell the first made a
    known mine. *)
Lemma mines_safes_disjoint_counterexample :
  (let ai := MinesweeperAI.mark_safe (0, 0)
               (MinesweeperAI.mark_mine (0, 0) (MinesweeperAI.init 8 8)) in
   MinesweeperAI.mines ai ∩ MinesweeperAI.safes ai ≠ ∅)
  ∧ ∃ ai1 ai2,
      MinesweeperAI.add_knowledge 5 (0, 0) 3 (MinesweeperAI.init 2 2) = Done ai1
      ∧ MinesweeperAI.add_knowledge 5 (0, 1) 0 ai1 = Done ai2
      ∧ MinesweeperAI.mines ai2 ∩ MinesweeperAI.safes ai2 ≠ ∅.
Proof.
  split.
  - simpl. intros H. assert ((0, 0) ∈ (∅ : gset Cell)) as H0; [| set_solver].
    rewrite <- H. set_solver.
  - exists (MinesweeperAI.mk 2 2 {[ (0, 0) ]} {[ (0, 1); (1, 0); (1, 1) ]} {[ (0, 0) ]} []),
           (MinesweeperAI.mk 2 2 {[ (0, 0); (0, 1) ]} {[ (0, 1); (1, 0); (1, 1) ]}
              {[ (0, 0); (0, 1) ]} []).
    split; [vm_compute; reflexivity |]. split; [vm_compute; reflexivity |].
    simpl. intros H. assert ((0, 1) ∈ (∅ : gset Cell)) as H0; [| set_solver].
    rewrite <- H. set_solver.
Qed.

(** C9, as stated, fails: a count of 9 for a cell with 8 neighbours, a
    count of -1, and a coordinate off the 3 by 3 board are all accepted;
    the first two leave a sentence whose count is outside
    [0 .. len(cells)]. *)
Lemma add_knowledge_unchecked_counterexample :
  let around := ({[ (0, 0); (0, 1); (0, 2); (1, 0); (1, 2); (2, 0); (2, 1); (2, 2) ]} : gset Cell) in
  MinesweeperAI.add_knowledge 5 (1, 1) 9 (MinesweeperAI.init 3 3)
  = Done (MinesweeperAI.mk 3 3 {[ (1, 1) ]} ∅ {[ (1, 1) ]} [Sentence.mk around 9])
  ∧ ¬ (9 ≤ Z.of_nat (size around))
  ∧ MinesweeperAI.add_knowledge 5 (1, 1) (-1) (MinesweeperAI.init 3 3)
    = Done (MinesweeperAI.mk 3 3 {[ (1, 1) ]} ∅ {[ (1, 1) ]} [Sentence.mk around (-1)])
  ∧ MinesweeperAI.add_knowledge 5 (7, 7) 0 (MinesweeperAI.init 3 3)
    = Done (MinesweeperAI.mk 3 3 {[ (7, 7) ]} ∅ {[ (7, 7) ]} []).
Proof.
  intros around. split; [vm_compute; reflexivity |].
  split; [vm_compute; intros H; apply H; reflexivity |].
  split; vm_compute; reflexivity.
Qed.

Lemma add_knowledge_narrowed_witness :
  let s := Sentence.mk {[ (0, 1); (1, 0); (1, 1) ]} 1 in
  let ai' := MinesweeperAI.mk 3 3 {[ (0, 0) ]} ∅ {[ (0, 0) ]} [s] in
  Sentence.cells s ## MinesweeperAI.mines ai'
  ∧ Sentence.cells s ## MinesweeperAI.safes ai'.
Proof.
  intros s ai'.
  apply (proj2 (add_knowledge_narrowed (MinesweeperAI.init 3 3) (0, 0) 1
                  (reachable_init 3 3)) 3%nat ai').
  - vm_compute. reflexivity.
  - apply list_elem_of_here.
Defined.

(** * Further properties of the code *)

(** ** The neighbours of a cell *)

Lemma elem_of_window (cell p : Cell) :
  p ∈ window cell ↔
  cell.1 - 1 ≤ p.1 ≤ cell.1 + 1 ∧ cell.2 - 1 ≤ p.2 ≤ cell.2 + 1.
Proof.
  destruct cell as [r c], p as [i j]. unfold window. simpl.
  rewrite !elem_of_cons, elem_of_nil. split.
  - intros H. repeat (destruct H as [H|H]); try done; inversion H; lia.
  - intros [Hi Hj].
    assert (i = r - 1 ∨ i = r ∨ i = r + 1) as Hi' by lia.
    assert (j = c - 1 ∨ j = c ∨ j = c + 1) as Hj' by lia.
    destruct Hi' as [-> | [-> | ->]]; destruct Hj' as [-> | [-> | ->]]; tauto.
Qed.

Lemma in_grid_spec (height width i j : Z) :
  in_grid height width i j = true ↔ 0 ≤ i < height ∧ 0 ≤ j < width.
Proof.
  unfold in_grid. rewrite !andb_true_iff, !Z.leb_le, !Z.ltb_lt. lia.
Qed.

Lemma neighbours_size_le (height width : Z) (cell : Cell) :
  (length (filter (neighbour_ok height width cell) (window cell)) ≤ 8)%nat.
Proof.
  assert (length (filter (neighbour_ok height width cell) (window cell))
          < length (window cell))%nat as Hlt.
  { apply (length_filter_lt _ _ cell).
    - apply elem_of_window. lia.
    - unfold neighbour_ok. tauto. }
  destruct cell as [r c]. unfold window in Hlt at 2. simpl in Hlt. lia.
Qed.

(** X1: the set [add_knowledge] builds around [cell] holds exactly the
    coordinates of the board that differ from [cell] by at most one row and
    one column, [cell] itself left out; it has at most 8 elements. *)
Theorem neighbouring_cells_spec (ai : MinesweeperAI.t) (cell : Cell) :
  (∀ p : Cell,
     p ∈ MinesweeperAI.neighbouring_cells ai cell ↔
     0 ≤ p.1 < MinesweeperAI.height ai ∧ 0 ≤ p.2 < MinesweeperAI.width ai
     ∧ p ≠ cell
     ∧ cell.1 - 1 ≤ p.1 ≤ cell.1 + 1 ∧ cell.2 - 1 ≤ p.2 ≤ cell.2 + 1)
  ∧ (size (MinesweeperAI.neighbouring_cells ai cell) ≤ 8)%nat.
Proof.
  rewrite neighbouring_cells_window. split.
  - intros p. rewrite elem_of_list_to_set, list_elem_of_filter, elem_of_window.
    unfold neighbour_ok. rewrite in_grid_spec. tauto.
  - rewrite (size_list_to_set (C:=gset Cell)) by (apply NoDup_filter, NoDup_window).
    apply neighbours_size_le.
Qed.

(** X2: the count the board reports for [cell] is the number of mines among
    the cells an engine of the board's size collects around [cell]; it lies
    between 0 and 8. *)
Theorem nearby_mines_spec (g : Minesweeper.t) (cell : Cell) :
  Minesweeper.nearby_mines g cell
  = Z.of_nat (size (MinesweeperAI.neighbouring_cells
                      (MinesweeperAI.init (Minesweeper.height g) (Minesweeper.width g)) cell
                    ∩ Minesweeper.mines g))
  ∧ 0 ≤ Minesweeper.nearby_mines g cell ≤ 8.
Proof.
  set (ai := MinesweeperAI.init (Minesweeper.height g) (Minesweeper.width g)).
  assert (Minesweeper.nearby_mines g cell
          = Z.of_nat (size (MinesweeperAI.neighbouring_cells ai cell ∩ Minesweeper.mines g)))
    as Heq by (apply (nearby_mines_neighbours g ai cell); done).
  split; [done |]. rewrite Heq.
  assert (size (MinesweeperAI.neighbouring_cells ai cell ∩ Minesweeper.mines g)
          ≤ size (MinesweeperAI.neighbouring_cells ai cell))%nat
    by (apply subseteq_size; set_solver).
  assert (size (MinesweeperAI.neighbouring_cells ai cell) ≤ 8)%nat.
  { rewrite neighbouring_cells_window.
    rewrite (size_list_to_set (C:=gset Cell)) by (apply NoDup_filter, NoDup_window).
    apply neighbours_size_le. }
  lia.
Qed.

(** ** [remove_stale_sentences] *)

(** X3: [remove_stale_sentences] never raises; it keeps exactly the
    sentences that have cells, in their order, touches nothing else, and a
    second call changes nothing. *)
Theorem remove_stale_sentences_spec (ai : MinesweeperAI.t) :
  ∃ ai',
    MinesweeperAI.remove_stale_sentences ai = Done ai'
    ∧ MinesweeperAI.knowledge ai'
      = filter (λ s, Sentence.cells s ≠ ∅) (MinesweeperAI.knowledge ai)
    ∧ MinesweeperAI.mines ai' = MinesweeperAI.mines ai
    ∧ MinesweeperAI.safes ai' = MinesweeperAI.safes ai
    ∧ MinesweeperAI.moves_made ai' = MinesweeperAI.moves_made ai
    ∧ MinesweeperAI.remove_stale_sentences ai' = Done ai'.
Proof.
  eexists. split; [apply remove_stale_sentences_filter |].
  repeat (split; [done |]).
  rewrite remove_stale_sentences_filter. f_equal. simpl.
  unfold MinesweeperAI.set_knowledge. simpl. f_equal.
  apply filter_has_cells_id, Forall_forall.
  by intros s [? _]%list_elem_of_filter.
Qed.

(** ** [refresh_knowledge] *)

Lemma marks_mines (ms : list mark) (ai : MinesweeperAI.t) :
  MinesweeperAI.mines (foldl apply_mark ai ms) = MinesweeperAI.mines ai ∪ mine_cells ms.
Proof.
  revert ai. induction ms as [|[c|c] ms IH]; intros ai; simpl;
    [set_solver | rewrite IH; simpl; set_solver ..].
Qed.

Lemma marks_safes (ms : list mark) (ai : MinesweeperAI.t) :
  MinesweeperAI.safes (foldl apply_mark ai ms) = MinesweeperAI.safes ai ∪ safe_cells ms.
Proof.
  revert ai. induction ms as [|[c|c] ms IH]; intros ai; simpl;
    [set_solver | rewrite IH; simpl; set_solver ..].
Qed.

Lemma marks_knowledge (ms : list mark) (ai : MinesweeperAI.t) :
  MinesweeperAI.knowledge (foldl apply_mark ai ms)
  = (λ s, foldl narrow s ms) <$> MinesweeperAI.knowledge ai.
Proof.
  revert ai. induction ms as [|[c|c] ms IH]; intros ai; simpl.
  - by rewrite list_fmap_id.
  - rewrite IH. simpl. by rewrite <- list_fmap_compose.
  - rewrite IH. simpl. by rewrite <- list_fmap_compose.
Qed.

Lemma narrow_cells (ms : list mark) (s : Sentence.t) :
  Sentence.cells (foldl narrow s ms)
  = Sentence.cells s ∖ (mine_cells ms ∪ safe_cells ms).
Proof.
  revert s. induction ms as [|[c|c] ms IH]; intros s; simpl; [set_solver | |];
    rewrite IH, ?Sentence_mark_mine_cells, ?Sentence_mark_safe_cells; set_solver.
Qed.

Lemma narrow_count (ms : list mark) (s : Sentence.t) :
  mine_cells ms ## safe_cells ms →
  Sentence.count (foldl narrow s ms)
  = Sentence.count s - Z.of_nat (size (Sentence.cells s ∩ mine_cells ms)).
Proof.
  revert s. induction ms as [|[c|c] ms IH]; intros s Hdisj; simpl in *.
  - replace (Sentence.cells s ∩ ∅) with (∅ : gset Cell) by set_solver.
    rewrite size_empty. lia.
  - rewrite IH by set_solver. rewrite Sentence_mark_mine_cells.
    destruct (decide (c ∈ Sentence.cells s)) as [Hc|Hc].
    + rewrite (Sentence_mark_mine_in c s Hc). simpl.
      replace (Sentence.cells s ∩ ({[c]} ∪ mine_cells ms))
        with ({[c]} ∪ (Sentence.cells s ∖ {[c]}) ∩ mine_cells ms)
        by (clear -Hc; apply set_eq; intros x; destruct (decide (x = c)); set_solver).
      assert (({[c]} : gset Cell) ## (Sentence.cells s ∖ {[c]}) ∩ mine_cells ms)
        as Hd by (clear; set_solver).
      rewrite (size_union (C:=gset Cell) _ _ Hd), size_singleton. lia.
    + rewrite (Sentence_mark_mine_notin c s Hc).
      do 3 f_equal. clear -Hc. set_solver.
  - rewrite IH by set_solver. rewrite Sentence_mark_safe_cells.
    assert (Sentence.count (Sentence.mark_safe c s) = Sentence.count s) as ->
      by (unfold Sentence.mark_safe; by case_bool_decide).
    do 3 f_equal. clear -Hdisj. set_solver.
Qed.

Lemma mine_cells_app (ms1 ms2 : list mark) :
  mine_cells (ms1 ++ ms2) = mine_cells ms1 ∪ mine_cells ms2.
Proof. induction ms1 as [|[c|c] ms1 IH]; simpl; rewrite ?IH; set_solver. Qed.

Lemma safe_cells_app (ms1 ms2 : list mark) :
  safe_cells (ms1 ++ ms2) = safe_cells ms1 ∪ safe_cells ms2.
Proof. induction ms1 as [|[c|c] ms1 IH]; simpl; rewrite ?IH; set_solver. Qed.

Lemma mine_cells_MarkMine (l : list Cell) : mine_cells (MarkMine <$> l) = list_to_set l.
Proof. induction l as [|c l IH]; simpl; rewrite ?IH; set_solver. Qed.

Lemma mine_cells_MarkSafe (l : list Cell) : mine_cells (MarkSafe <$> l) = ∅.
Proof. induction l as [|c l IH]; simpl; rewrite ?IH; set_solver. Qed.

Lemma safe_cells_MarkSafe (l : list Cell) : safe_cells (MarkSafe <$> l) = list_to_set l.
Proof. induction l as [|c l IH]; simpl; rewrite ?IH; set_solver. Qed.

Lemma safe_cells_MarkMine (l : list Cell) : safe_cells (MarkMine <$> l) = ∅.
Proof. induction l as [|c l IH]; simpl; rewrite ?IH; set_solver. Qed.

Lemma mine_cells_marks_of (k : list Sentence.t) :
  mine_cells (marks_of k) = ⋃ (Sentence.known_mines <$> k).
Proof.
  induction k as [|s k IH]; [done |].
  unfold marks_of in *. rewrite bind_cons, mine_cells_app, IH, fmap_cons, union_list_cons.
  unfold marks_of_sentence.
  rewrite mine_cells_app, mine_cells_MarkMine, mine_cells_MarkSafe, list_to_set_elements_L.
  set_solver.
Qed.

Lemma safe_cells_marks_of (k : list Sentence.t) :
  safe_cells (marks_of k) = ⋃ (Sentence.known_safes <$> k).
Proof.
  induction k as [|s k IH]; [done |].
  unfold marks_of in *. rewrite bind_cons, safe_cells_app, IH, fmap_cons, union_list_cons.
  unfold marks_of_sentence.
  rewrite safe_cells_app, safe_cells_MarkMine, safe_cells_MarkSafe, list_to_set_elements_L.
  set_solver.
Qed.

Lemma refresh_knowledge_effect (ai : MinesweeperAI.t) :
  let k := MinesweeperAI.knowledge ai in
  let found_mines : gset Cell := ⋃ (Sentence.known_mines <$> k) in
  let found_safes : gset Cell := ⋃ (Sentence.known_safes <$> k) in
  let ai' := MinesweeperAI.refresh_knowledge ai in
  MinesweeperAI.mines ai' = MinesweeperAI.mines ai ∪ found_mines
  ∧ MinesweeperAI.safes ai' = MinesweeperAI.safes ai ∪ found_safes
  ∧ MinesweeperAI.moves_made ai' = MinesweeperAI.moves_made ai
  ∧ length (MinesweeperAI.knowledge ai') = length k
  ∧ ∀ i s, k !! i = Some s →
      ∃ s', MinesweeperAI.knowledge ai' !! i = Some s'
        ∧ Sentence.cells s' = Sentence.cells s ∖ (found_mines ∪ found_safes)
        ∧ (found_mines ## found_safes →
           Sentence.count s'
           = Sentence.count s - Z.of_nat (size (Sentence.cells s ∩ found_mines))).
Proof.
  intros k found_mines found_safes ai'. unfold ai'.
  rewrite refresh_knowledge_marks. fold k.
  rewrite marks_mines, marks_safes, marks_knowledge, mine_cells_marks_of,
    safe_cells_marks_of. fold k found_mines found_safes.
  split; [done |]. split; [done |].
  split; [by destruct (extends_marks (marks_of k) ai) as (_ & _ & ? & _) |].
  split; [by rewrite length_fmap |].
  intros i s Hs. exists (foldl narrow s (marks_of k)).
  split; [by rewrite list_lookup_fmap, Hs |].
  rewrite narrow_cells, mine_cells_marks_of, safe_cells_marks_of.
  split; [done |]. intros Hdisj. rewrite narrow_count.
  - by rewrite mine_cells_marks_of.
  - by rewrite mine_cells_marks_of, safe_cells_marks_of.
Qed.

(** X4: [refresh_knowledge] adds to [mines] exactly the known mines of the
    sentences it started from and to [safes] exactly their known safes,
    leaves [moves_made] alone, keeps the number and order of the sentences,
    and removes exactly those coordinates from every sentence; when no
    coordinate is recorded both ways, each count drops by the number of
    recorded mines the sentence contained. *)
Theorem refresh_knowledge_spec (ai : MinesweeperAI.t) :
  let k := MinesweeperAI.knowledge ai in
  let found_mines : gset Cell := ⋃ (Sentence.known_mines <$> k) in
  let found_safes : gset Cell := ⋃ (Sentence.known_safes <$> k) in
  let ai' := MinesweeperAI.refresh_knowledge ai in
  MinesweeperAI.mines ai' = MinesweeperAI.mines ai ∪ found_mines
  ∧ MinesweeperAI.safes ai' = MinesweeperAI.safes ai ∪ found_safes
  ∧ MinesweeperAI.moves_made ai' = MinesweeperAI.moves_made ai
  ∧ length (MinesweeperAI.knowledge ai') = length k
  ∧ ∀ i s, k !! i = Some s →
      ∃ s', MinesweeperAI.knowledge ai' !! i = Some s'
        ∧ Sentence.cells s' = Sentence.cells s ∖ (found_mines ∪ found_safes)
        ∧ (found_mines ## found_safes →
           Sentence.count s'
           = Sentence.count s - Z.of_nat (size (Sentence.cells s ∩ found_mines))).
Proof. apply refresh_knowledge_effect. Qed.

Lemma refresh_knowledge_spec_witness :
  let ai := MinesweeperAI.mk 2 2 {[ (0, 0) ]} ∅ {[ (0, 0) ]}
              [Sentence.mk {[ (0, 1); (1, 0); (1, 1) ]} 2; Sentence.mk {[ (0, 1) ]} 1] in
  ∃ s', MinesweeperAI.knowledge (MinesweeperAI.refresh_knowledge ai) !! 0%nat = Some s'
    ∧ Sentence.cells s'
      = {[ (0, 1); (1, 0); (1, 1) ]}
        ∖ (⋃ (Sentence.known_mines <$> MinesweeperAI.knowledge ai)
           ∪ ⋃ (Sentence.known_safes <$> MinesweeperAI.knowledge ai))
    ∧ Sentence.count s'
      = 2 - Z.of_nat (size (({[ (0, 1); (1, 0); (1, 1) ]} : gset Cell)
                            ∩ ⋃ (Sentence.known_mines <$> MinesweeperAI.knowledge ai))).
Proof.
  intros ai.
  destruct (proj2 (proj2 (proj2 (proj2 (refresh_knowledge_spec ai)))) 0%nat
              (Sentence.mk {[ (0, 1); (1, 0); (1, 1) ]} 2) eq_refl)
    as (s' & Hs' & Hcells & Hcount).
  exists s'. split; [exact Hs' |]. split; [exact Hcells |].
  apply Hcount. apply (bool_decide_unpack _). vm_compute. exact I.
Defined.

(** X5: a sentence never reports one coordinate both as a known mine and as
    a known safe cell, whatever its count; what it reports are cells of its
    own. *)
Theorem known_mines_safes_disjoint (s : Sentence.t) :
  Sentence.known_mines s ∩ Sentence.known_safes s = ∅
  ∧ Sentence.known_mines s ⊆ Sentence.cells s
  ∧ Sentence.known_safes s ⊆ Sentence.cells s.
Proof.
  unfold Sentence.known_mines, Sentence.known_safes.
  repeat case_bool_decide; repeat split; try set_solver.
  assert (Sentence.cells s = ∅) as ->; [| set_solver].
  apply leibniz_equiv, size_empty_inv. lia.
Qed.

(** ** The sentence [add_knowledge] appends *)

Lemma add_sentence_appended (cell : Cell) (count : Z) (ai : MinesweeperAI.t) :
  ∃ new,
    MinesweeperAI.knowledge (MinesweeperAI.add_sentence cell count ai)
    = (Sentence.mark_safe cell <$> MinesweeperAI.knowledge ai) ++ [new]
    ∧ Sentence.cells new
      = MinesweeperAI.neighbouring_cells ai cell
        ∖ (MinesweeperAI.mines ai ∪ MinesweeperAI.safes ai)
    ∧ Sentence.count new
      = count - Z.of_nat (size (MinesweeperAI.neighbouring_cells ai cell
                                ∩ MinesweeperAI.mines ai)).
Proof.
  rewrite add_sentence_unfold. cbn [MinesweeperAI.knowledge].
  eexists. split; [reflexivity |].
  set (nbrs := MinesweeperAI.neighbouring_cells ai cell).
  assert (cell ∉ nbrs) as Hcell.
  { unfold nbrs. rewrite neighbouring_cells_window, elem_of_list_to_set, list_elem_of_filter.
    unfold neighbour_ok. tauto. }
  rewrite <- (foldl_fmap narrow _ _ MarkSafe), <- (foldl_fmap narrow _ _ MarkMine).
  split.
  - rewrite !narrow_cells, mine_cells_MarkMine, mine_cells_MarkSafe,
      safe_cells_MarkMine, safe_cells_MarkSafe, !list_to_set_elements_L.
    cbn [Sentence.cells]. clear -Hcell. set_solver.
  - rewrite narrow_count
      by (rewrite mine_cells_MarkSafe; clear; set_solver).
    rewrite narrow_count
      by (rewrite safe_cells_MarkMine; clear; set_solver).
    rewrite mine_cells_MarkMine, mine_cells_MarkSafe, list_to_set_elements_L.
    cbn [Sentence.cells Sentence.count].
    replace (Sentence.cells (foldl narrow (Sentence.mk nbrs count)
               (MarkMine <$> elements (MinesweeperAI.mines ai))) ∩ ∅)
      with (∅ : gset Cell) by (clear; set_solver).
    rewrite size_empty. lia.
Qed.

(** X6: before its loop, [add_knowledge] turns every sentence it has into
    the one narrowed by [cell] as a safe cell and appends one sentence: the
    neighbours of [cell] that are in neither [mines] nor [safes], with the
    given count less the number of neighbours already in [mines]. *)
Theorem add_sentence_spec (cell : Cell) (count : Z) (ai : MinesweeperAI.t) :
  ∃ new,
    MinesweeperAI.knowledge (MinesweeperAI.add_sentence cell count ai)
    = (Sentence.mark_safe cell <$> MinesweeperAI.knowledge ai) ++ [new]
    ∧ Sentence.cells new
      = MinesweeperAI.neighbouring_cells ai cell
        ∖ (MinesweeperAI.mines ai ∪ MinesweeperAI.safes ai)
    ∧ Sentence.count new
      = count - Z.of_nat (size (MinesweeperAI.neighbouring_cells ai cell
                                ∩ MinesweeperAI.mines ai)).
Proof. apply add_sentence_appended. Qed.

(** ** What [add_knowledge] conserves *)

Lemma mark_cells_split (ms : list mark) :
  list_to_set (mark_cell <$> ms) = mine_cells ms ∪ safe_cells ms.
Proof. induction ms as [|[c|c] ms IH]; simpl; rewrite ?IH; set_solver. Qed.

Lemma known_marks (ms : list mark) (ai : MinesweeperAI.t) :
  (∀ m, m ∈ ms → mark_cell m ∈ all_cells (MinesweeperAI.knowledge ai)) →
  known (foldl apply_mark ai ms) = known ai.
Proof.
  intros Hms. unfold known.
  rewrite marks_mines, marks_safes, all_cells_marks, mark_cells_split.
  assert (mine_cells ms ∪ safe_cells ms ⊆ all_cells (MinesweeperAI.knowledge ai)) as Hsub.
  { rewrite <- mark_cells_split. intros c Hc. apply elem_of_list_to_set in Hc.
    apply list_elem_of_fmap in Hc as (m & -> & Hm). by apply Hms. }
  apply set_eq. intros x.
  destruct (decide (x ∈ mine_cells ms ∪ safe_cells ms)); set_solver.
Qed.

Lemma all_cells_filter_eq (k : list Sentence.t) :
  all_cells (filter has_cells k) = all_cells k.
Proof.
  apply set_eq. intros c. rewrite !elem_of_all_cells. split.
  - intros (s & [_ Hs]%list_elem_of_filter & Hc). eauto.
  - intros (s & Hs & Hc). exists s. split; [| done].
    apply list_elem_of_filter. split; [| done]. unfold has_cells. set_solver.
Qed.

Lemma known_pass (ai : MinesweeperAI.t) : known (pass ai) = known ai.
Proof.
  destruct (pass_knowledge ai) as (added & Heq & Hpost).
  apply infer_post_all_cells in Hpost.
  rewrite <- (known_marks (marks_of (MinesweeperAI.knowledge ai)) ai)
    by (intros m; apply marks_of_cell).
  rewrite <- refresh_knowledge_marks, Heq. unfold known. simpl.
  rewrite all_cells_app, all_cells_filter_eq in *. set_solver.
Qed.

Lemma known_loop (fuel : nat) (ai : MinesweeperAI.t) e ai' :
  MinesweeperAI.add_knowledge_loop fuel ai = Done (e, ai') → known ai' = known ai.
Proof.
  revert ai. induction fuel as [|fuel IH]; intros ai; [done |].
  rewrite add_knowledge_loop_pass.
  destruct (knowledge_eqb _ _); [intros [= <- <-]; apply known_pass |].
  case_bool_decide; [intros [= <- <-]; apply known_pass |].
  intros Hr. rewrite (IH _ Hr). apply known_pass.
Qed.

(** X7: a call of [add_knowledge] that returns keeps the board size, adds
    [cell] to [moves_made] and to [safes], never takes a coordinate out of
    [mines] or [safes], and neither forgets nor invents coordinates: the
    coordinates in [mines], [safes] or some sentence afterwards are those
    from before, [cell] and its neighbours. *)
Theorem add_knowledge_conserves
  (fuel : nat) (cell : Cell) (count : Z) (ai ai' : MinesweeperAI.t) :
  MinesweeperAI.add_knowledge fuel cell count ai = Done ai' →
  MinesweeperAI.height ai' = MinesweeperAI.height ai
  ∧ MinesweeperAI.width ai' = MinesweeperAI.width ai
  ∧ MinesweeperAI.moves_made ai' = MinesweeperAI.moves_made ai ∪ {[cell]}
  ∧ MinesweeperAI.mines ai ⊆ MinesweeperAI.mines ai'
  ∧ MinesweeperAI.safes ai ∪ {[cell]} ⊆ MinesweeperAI.safes ai'
  ∧ MinesweeperAI.mines ai' ∪ MinesweeperAI.safes ai'
      ∪ all_cells (MinesweeperAI.knowledge ai')
    = MinesweeperAI.mines ai ∪ MinesweeperAI.safes ai
      ∪ all_cells (MinesweeperAI.knowledge ai)
      ∪ {[cell]} ∪ MinesweeperAI.neighbouring_cells ai cell.
Proof.
  intros (e & Hr)%add_knowledge_done. unfold MinesweeperAI.add_knowledge_exit in Hr.
  pose proof (known_loop _ _ _ _ Hr) as Hknown.
  apply extends_loop in Hr as (Hh & Hw & Hmoves & Hmines & Hsafes).
  rewrite add_sentence_unfold in Hh, Hw, Hmoves, Hmines, Hsafes.
  cbn [MinesweeperAI.height MinesweeperAI.width MinesweeperAI.moves_made
       MinesweeperAI.mines MinesweeperAI.safes] in *.
  repeat (split; [done |]).
  fold (known ai'). rewrite Hknown. unfold known.
  destruct (add_sentence_appended cell count ai) as (new & -> & Hcells & _).
  rewrite add_sentence_unfold. cbn [MinesweeperAI.mines MinesweeperAI.safes].
  rewrite all_cells_app, (all_cells_narrow _ cell) by apply Sentence_mark_safe_cells.
  unfold all_cells at 2. simpl. rewrite Hcells.
  apply set_eq. intros x.
  destruct (decide (x = cell)), (decide (x ∈ MinesweeperAI.mines ai)),
    (decide (x ∈ MinesweeperAI.safes ai)); set_solver.
Qed.

Lemma add_knowledge_conserves_witness :
  let ai := MinesweeperAI.init 3 3 in
  let ai' := MinesweeperAI.mk 3 3 {[ (0, 0) ]} ∅ {[ (0, 0) ]}
               [Sentence.mk {[ (0, 1); (1, 0); (1, 1) ]} 1] in
  MinesweeperAI.height ai' = MinesweeperAI.height ai
  ∧ MinesweeperAI.width ai' = MinesweeperAI.width ai
  ∧ MinesweeperAI.moves_made ai' = MinesweeperAI.moves_made ai ∪ {[ (0, 0) ]}
  ∧ MinesweeperAI.mines ai ⊆ MinesweeperAI.mines ai'
  ∧ MinesweeperAI.safes ai ∪ {[ (0, 0) ]} ⊆ MinesweeperAI.safes ai'
  ∧ MinesweeperAI.mines ai' ∪ MinesweeperAI.safes ai'
      ∪ all_cells (MinesweeperAI.knowledge ai')
    = MinesweeperAI.mines ai ∪ MinesweeperAI.safes ai
      ∪ all_cells (MinesweeperAI.knowledge ai)
      ∪ {[ (0, 0) ]} ∪ MinesweeperAI.neighbouring_cells ai (0, 0).
Proof.
  intros ai ai'. apply (add_knowledge_conserves 3 (0, 0) 1 ai ai').
  vm_compute. reflexivity.
Defined.

(** ** The state [add_knowledge] returns *)

Lemma loop_result_pass (fuel : nat) (ai : MinesweeperAI.t) e ai' :
  MinesweeperAI.add_knowledge_loop fuel ai = Done (e, ai') → ∃ prev, ai' = pass prev.
Proof.
  revert ai. induction fuel as [|fuel IH]; intros ai; [done |].
  rewrite add_knowledge_loop_pass.
  destruct (knowledge_eqb _ _); [intros [= <- <-]; eauto |].
  case_bool_decide; [intros [= <- <-]; eauto |]. apply IH.
Qed.

(** X8: whichever way its loop ends, [add_knowledge] returns with no stale
    sentence: every sentence of the knowledge list has at least one cell. *)
Theorem add_knowledge_no_stale
  (fuel : nat) (cell : Cell) (count : Z) (ai ai' : MinesweeperAI.t) :
  MinesweeperAI.add_knowledge fuel cell count ai = Done ai' →
  ∀ s, s ∈ MinesweeperAI.knowledge ai' → Sentence.cells s ≠ ∅.
Proof.
  intros (e & Hr)%add_knowledge_done s Hs.
  apply loop_result_pass in Hr as (prev & ->).
  by apply (proj1 (Forall_forall _ _) (pass_has_cells prev)).
Qed.

Lemma add_knowledge_no_stale_witness :
  Sentence.cells (Sentence.mk {[ (0, 1); (1, 0); (1, 1) ]} 1) ≠ ∅.
Proof.
  apply (add_knowledge_no_stale 3 (0, 0) 1 (MinesweeperAI.init 3 3)
           (MinesweeperAI.mk 3 3 {[ (0, 0) ]} ∅ {[ (0, 0) ]}
              [Sentence.mk {[ (0, 1); (1, 0); (1, 1) ]} 1])).
  - vm_compute. reflexivity.
  - apply list_elem_of_here.
Defined.

(** X9: when [add_knowledge] leaves its loop on the no-change test, the
    engine it returns is a fixed point of the three steps of the loop:
    [refresh_knowledge], [remove_stale_sentences] and [infer_new_sentences]
    each leave it as it is.  A return with at most 50 sentences is always
    such an exit. *)
Theorem no_change_exit_fixed_point
  (fuel : nat) (cell : Cell) (count : Z) (ai ai' : MinesweeperAI.t)
  (e : MinesweeperAI.loop_exit) :
  MinesweeperAI.add_knowledge_exit fuel cell count ai = Done (e, ai') →
  (e = MinesweeperAI.NoChange →
     MinesweeperAI.refresh_knowledge ai' = ai'
     ∧ MinesweeperAI.remove_stale_sentences ai' = Done ai'
     ∧ MinesweeperAI.infer_new_sentences ai' = ai')
  ∧ ((length (MinesweeperAI.knowledge ai') ≤ 50)%nat → e = MinesweeperAI.NoChange).
Proof.
  intros Hr. unfold MinesweeperAI.add_knowledge_exit in Hr.
  pose proof (loop_exit_inv _ _ _ _ Hr) as Hexit. split.
  - intros ->.
    destruct (pass_no_change ai') as [_ Hms]; [by rewrite Hexit |].
    assert (MinesweeperAI.refresh_knowledge ai' = ai') as Hrefresh
      by (by rewrite refresh_knowledge_marks, Hms).
    assert (filter has_cells (MinesweeperAI.knowledge ai') = MinesweeperAI.knowledge ai')
      as Hfilter.
    { apply filter_has_cells_id. rewrite <- Hexit at 1. apply pass_has_cells. }
    split; [done |]. split.
    + by rewrite remove_stale_sentences_filter, Hfilter, set_knowledge_id.
    + unfold pass in Hexit. by rewrite Hrefresh, Hfilter, set_knowledge_id in Hexit.
  - intros Hlen. destruct e; [done | lia].
Qed.

Lemma no_change_exit_fixed_point_witness :
  let ai' := MinesweeperAI.mk 3 3 {[ (0, 0) ]} ∅ {[ (0, 0) ]}
               [Sentence.mk {[ (0, 1); (1, 0); (1, 1) ]} 1] in
  MinesweeperAI.refresh_knowledge ai' = ai'
  ∧ MinesweeperAI.remove_stale_sentences ai' = Done ai'
  ∧ MinesweeperAI.infer_new_sentences ai' = ai'.
Proof.
  intros ai'.
  apply (proj1 (no_change_exit_fixed_point 3 (0, 0) 1 (MinesweeperAI.init 3 3) ai'
                  MinesweeperAI.NoChange ltac:(vm_compute; reflexivity))).
  reflexivity.
Defined.

(** ** Honest play *)

(** X10: under honest play the engine is never wrong about the board: every
    coordinate in [mines] is a mine, no coordinate in [safes] is one, and
    the count of every sentence is the number of mines among its cells. *)
Theorem honest_sound (g : Minesweeper.t) (ai : MinesweeperAI.t) :
  honest g ai →
  MinesweeperAI.mines ai ⊆ Minesweeper.mines g
  ∧ MinesweeperAI.safes ai ∩ Minesweeper.mines g = ∅
  ∧ ∀ s, s ∈ MinesweeperAI.knowledge ai →
      Sentence.count s
      = Z.of_nat (size (Sentence.cells s ∩ Minesweeper.mines g)).
Proof.
  intros [_ (Hmines & Hsafes & Hk)]%honest_agrees.
  split; [done |]. split; [set_solver | exact Hk].
Qed.

Lemma honest_sound_witness :
  let g := Minesweeper.mk 1 2 {[ (0, 1) ]} in
  let ai := MinesweeperAI.mk 1 2 {[ (0, 0) ]} {[ (0, 1) ]} {[ (0, 0) ]} [] in
  MinesweeperAI.mines ai ⊆ Minesweeper.mines g
  ∧ MinesweeperAI.safes ai ∩ Minesweeper.mines g = ∅
  ∧ ∀ s, s ∈ MinesweeperAI.knowledge ai →
      Sentence.count s
      = Z.of_nat (size (Sentence.cells s ∩ Minesweeper.mines g)).
Proof.
  intros g ai. apply (honest_sound g ai).
  apply (honest_add_knowledge g 3 (0, 0) (MinesweeperAI.init 1 2)).
  - apply (honest_init g).
  - vm_compute. reflexivity.
  - vm_compute. reflexivity.
Defined.

(** X11: under honest play a move proposed by [make_safe_move] is not in
    the mine set of the board and has not been played. *)
Theorem honest_safe_move_is_safe
  (g : Minesweeper.t) (ai : MinesweeperAI.t) (rnd : nat) (c : Cell) :
  honest g ai →
  (MinesweeperAI.make_safe_move rnd ai).1 = Some c →
  (c ∉ Minesweeper.mines g) ∧ (c ∉ MinesweeperAI.moves_made ai).
Proof.
  intros [_ (_ & Hsafes & _)]%honest_agrees.
  unfold MinesweeperAI.make_safe_move, choice.
  case_bool_decide; simpl; [| done].
  intros Hc%list_elem_of_lookup_2%elem_of_elements.
  split; set_solver.
Qed.

Lemma honest_safe_move_is_safe_witness :
  let g := Minesweeper.mk 1 3 {[ (0, 2) ]} in
  let ai := MinesweeperAI.mk 1 3 {[ (0, 0) ]} ∅ {[ (0, 0); (0, 1) ]} [] in
  ((0, 1) ∉ Minesweeper.mines g) ∧ ((0, 1) ∉ MinesweeperAI.moves_made ai).
Proof.
  intros g ai. apply (honest_safe_move_is_safe g ai 0 (0, 1)).
  - apply (honest_add_knowledge g 3 (0, 0) (MinesweeperAI.init 1 3)).
    + apply (honest_init g).
    + vm_compute. reflexivity.
    + vm_compute. reflexivity.
  - vm_compute. reflexivity.
Defined.

(** ** [make_random_move] *)

Lemma grid_row (i : Z) (l : list Z) (acc : gset Cell) (p : Cell) :
  p ∈ foldl (λ acc j, acc ∪ {[(i, j)]}) acc l ↔ p ∈ acc ∨ (p.1 = i ∧ p.2 ∈ l).
Proof.
  revert acc. induction l as [|j l IH]; intros acc; simpl.
  - rewrite elem_of_nil. tauto.
  - rewrite IH, elem_of_union, elem_of_singleton, elem_of_cons.
    destruct p as [a b]. simpl. split.
    + intros [[?|[= -> ->]]|[? ?]]; auto.
    + intros [?|[-> [->|?]]]; auto.
Qed.

Lemma grid_rows (rows cols : list Z) (acc : gset Cell) (p : Cell) :
  p ∈ foldl (λ acc i, foldl (λ acc j, acc ∪ {[(i, j)]}) acc cols) acc rows
  ↔ p ∈ acc ∨ (p.1 ∈ rows ∧ p.2 ∈ cols).
Proof.
  revert acc. induction rows as [|i rows IH]; intros acc; simpl.
  - rewrite elem_of_nil. tauto.
  - rewrite IH, grid_row, elem_of_cons. split.
    + intros [[?|[? ?]]|[? ?]]; auto.
    + intros [?|[[->|?] ?]]; auto.
Qed.

(** X12: [make_random_move] leaves the engine as it found it; a move it
    returns lies on the board, has not been played and is not a known mine;
    it returns [None] exactly when the board has no such cell. *)
Theorem make_random_move_correct (rnd : nat) (ai : MinesweeperAI.t) :
  let free (p : Cell) :=
    0 ≤ p.1 < MinesweeperAI.height ai ∧ 0 ≤ p.2 < MinesweeperAI.width ai
    ∧ (p ∉ MinesweeperAI.moves_made ai) ∧ (p ∉ MinesweeperAI.mines ai) in
  (MinesweeperAI.make_random_move rnd ai).2 = ai
  ∧ (∀ c, (MinesweeperAI.make_random_move rnd ai).1 = Some c → free c)
  ∧ ((MinesweeperAI.make_random_move rnd ai).1 = None ↔ ∀ p, ¬ free p).
Proof.
  intros free. unfold MinesweeperAI.make_random_move.
  set (grid := foldl _ ∅ (seqZ 0 (MinesweeperAI.height ai))).
  set (av := elements (grid ∖ MinesweeperAI.moves_made ai ∖ MinesweeperAI.mines ai)).
  assert (∀ p, p ∈ av ↔ free p) as Hav.
  { intros p. unfold av, grid, free.
    rewrite elem_of_elements, !elem_of_difference, grid_rows, !elem_of_seqZ.
    rewrite elem_of_empty. intuition lia. }
  case_bool_decide as Hne; simpl.
  - destruct (choice_elem_of rnd av Hne) as (c & Hc & Hin).
    split; [done |]. split.
    + intros c' Hc'. apply Hav. rewrite Hc in Hc'. by injection Hc' as <-.
    + rewrite Hc. split; [done |]. intros Hnone. exfalso. by apply (Hnone c), Hav.
  - assert (av = []) as Hnil by (destruct av; [done | by destruct Hne]).
    split; [done |]. split; [done |]. split; [| done].
    intros _ p Hp%Hav. rewrite Hnil in Hp. by apply elem_of_nil in Hp.
Qed.

Lemma make_random_move_correct_witness :
  let ai := MinesweeperAI.mk 1 2 {[ (0, 0) ]} ∅ {[ (0, 0) ]} [] in
  0 ≤ (0, 1).1 < MinesweeperAI.height ai ∧ 0 ≤ (0, 1).2 < MinesweeperAI.width ai
  ∧ ((0, 1) ∉ MinesweeperAI.moves_made ai) ∧ ((0, 1) ∉ MinesweeperAI.mines ai).
Proof.
  intros ai.
  apply (proj1 (proj2 (make_random_move_correct 5 ai)) (0, 1)).
  vm_compute. reflexivity.
Defined.

(** ** Iteration over sets *)

(** X13: the order in which the two loops of [refresh_knowledge] over a
    sentence's known mines and known safes, and the two loops of
    [add_knowledge] over [mines] and [safes], visit their set does not
    matter: every order of the same coordinates gives the same result. *)
Theorem set_iteration_order_irrelevant :
  (∀ (ai : MinesweeperAI.t) (s : Sentence.t) (known_mines known_safes : list Cell),
     known_mines ≡ₚ elements (Sentence.known_mines s) →
     known_safes ≡ₚ elements (Sentence.known_safes s) →
     foldl (λ self c, MinesweeperAI.mark_safe c self)
       (foldl (λ self c, MinesweeperAI.mark_mine c self) ai known_mines) known_safes
     = MinesweeperAI.refresh_sentence ai s)
  ∧ (∀ (new : Sentence.t) (mines safes : gset Cell) (mine_list safe_list : list Cell),
       mine_list ≡ₚ elements mines →
       safe_list ≡ₚ elements safes →
       foldl (λ s c, Sentence.mark_safe c s)
         (foldl (λ s c, Sentence.mark_mine c s) new mine_list) safe_list
       = foldl (λ s c, Sentence.mark_safe c s)
           (foldl (λ s c, Sentence.mark_mine c s) new (elements mines)) (elements safes)).
Proof.
  split.
  - intros. by apply refresh_sentence_any_order.
  - intros. by apply narrow_new_sentence_any_order.
Qed.

Lemma set_iteration_order_irrelevant_witness :
  let ai := MinesweeperAI.mk 2 2 ∅ ∅ ∅ [Sentence.mk {[ (0, 1); (1, 0); (1, 1) ]} 2] in
  let s := Sentence.mk {[ (0, 1); (1, 0) ]} 2 in
  foldl (λ self c, MinesweeperAI.mark_safe c self)
    (foldl (λ self c, MinesweeperAI.mark_mine c self) ai
       (reverse (elements (Sentence.known_mines s))))
    (reverse (elements (Sentence.known_safes s)))
  = MinesweeperAI.refresh_sentence ai s.
Proof.
  intros ai s. apply (proj1 set_iteration_order_irrelevant ai s).
  - apply reverse_Permutation.
  - apply reverse_Permutation.
Defined.

(** ** What the first pass of the loop extracts *)

Lemma loop_extends_refresh (fuel : nat) (ai : MinesweeperAI.t) e ai' :
  MinesweeperAI.add_knowledge_loop fuel ai = Done (e, ai') →
  extends (MinesweeperAI.refresh_knowledge ai) ai'.
Proof.
  destruct fuel as [|fuel]; [done |]. rewrite add_knowledge_loop_pass.
  assert (extends (MinesweeperAI.refresh_knowledge ai) (pass ai)) as Hpass.
  { destruct (pass_knowledge ai) as (added & -> & _). apply extends_set_knowledge. }
  destruct (knowledge_eqb _ _); [by intros [= <- <-] |].
  case_bool_decide; [by intros [= <- <-] |].
  intros Hr%extends_loop. by eapply extends_trans.
Qed.

(** X14: every sentence that stands in the knowledge list when the loop of
    [add_knowledge] starts and has count 0 has all its cells in [safes]
    when the call returns, and every one whose count is the number of its
    cells has them all in [mines], whichever way the loop ends. *)
Theorem first_pass_extracts
  (fuel : nat) (cell : Cell) (count : Z) (ai ai' : MinesweeperAI.t) :
  MinesweeperAI.add_knowledge fuel cell count ai = Done ai' →
  ∀ s, s ∈ MinesweeperAI.knowledge (MinesweeperAI.add_sentence cell count ai) →
    (Sentence.count s = 0 → Sentence.cells s ⊆ MinesweeperAI.safes ai')
    ∧ (Sentence.count s = Z.of_nat (size (Sentence.cells s)) →
       Sentence.cells s ⊆ MinesweeperAI.mines ai').
Proof.
  intros (e & Hr)%add_knowledge_done s Hs.
  unfold MinesweeperAI.add_knowledge_exit in Hr.
  apply loop_extends_refresh in Hr as (_ & _ & _ & Hmines & Hsafes).
  rewrite refresh_knowledge_marks, marks_mines, mine_cells_marks_of in Hmines.
  rewrite refresh_knowledge_marks, marks_safes, safe_cells_marks_of in Hsafes.
  split; intros Hcount c Hc.
  - apply Hsafes, elem_of_union. right. apply elem_of_union_list.
    exists (Sentence.known_safes s). split; [by apply list_elem_of_fmap_2 |].
    unfold Sentence.known_safes. by rewrite bool_decide_eq_true_2.
  - apply Hmines, elem_of_union. right. apply elem_of_union_list.
    exists (Sentence.known_mines s). split; [by apply list_elem_of_fmap_2 |].
    unfold Sentence.known_mines. by rewrite bool_decide_eq_true_2.
Qed.

Lemma first_pass_extracts_witness :
  let ai' := MinesweeperAI.mk 1 2 {[ (0, 0) ]} {[ (0, 1) ]} {[ (0, 0) ]} [] in
  let s := Sentence.mk {[ (0, 1) ]} 1 in
  Sentence.cells s ⊆ MinesweeperAI.mines ai'.
Proof.
  intros ai' s.
  apply (proj2 (first_pass_extracts 3 (0, 0) 1 (MinesweeperAI.init 1 2) ai'
                  ltac:(vm_compute; reflexivity) s ltac:(vm_compute; left))).
  vm_compute. reflexivity.
Defined.

(** ** A first reveal with count 0 *)

Lemma pass_empty (ai : MinesweeperAI.t) :
  MinesweeperAI.knowledge ai = [] → pass ai = ai.
Proof.
  intros Hk. unfold pass. rewrite refresh_knowledge_marks, Hk. simpl.
  rewrite Hk, filter_nil. unfold MinesweeperAI.infer_new_sentences. simpl.
  rewrite <- Hk. apply set_knowledge_id.
Qed.

(** X15: on a fresh engine of any size, [add_knowledge] for any cell with
    count 0 returns, given two passes, with the cell and all its neighbours
    in [safes], no known mine and an empty knowledge list. *)
Theorem reveal_zero_on_fresh_engine (fuel : nat) (height width : Z) (cell : Cell) :
  (2 ≤ fuel)%nat →
  ∃ ai',
    MinesweeperAI.add_knowledge fuel cell 0 (MinesweeperAI.init height width) = Done ai'
    ∧ MinesweeperAI.moves_made ai' = {[cell]}
    ∧ MinesweeperAI.safes ai'
      = {[cell]} ∪ MinesweeperAI.neighbouring_cells (MinesweeperAI.init height width) cell
    ∧ MinesweeperAI.mines ai' = ∅
    ∧ MinesweeperAI.knowledge ai' = [].
Proof.
  intros Hfuel.
  set (ai0 := MinesweeperAI.init height width).
  set (nbrs := MinesweeperAI.neighbouring_cells ai0 cell).
  set (ai1 := MinesweeperAI.add_sentence cell 0 ai0).
  destruct (add_sentence_appended cell 0 ai0) as (new & Hk1 & Hcells & Hcount).
  change (MinesweeperAI.knowledge ai1 = [new]) in Hk1.
  change (Sentence.cells new = nbrs ∖ (∅ ∪ ∅)) in Hcells.
  change (Sentence.count new = 0 - Z.of_nat (size (nbrs ∩ ∅))) in Hcount.
  assert (Sentence.cells new = nbrs) as Hnew by (rewrite Hcells; set_solver).
  assert (Sentence.count new = 0) as Hzero.
  { rewrite Hcount. replace (nbrs ∩ ∅) with (∅ : gset Cell) by set_solver.
    rewrite size_empty. lia. }
  assert (Sentence.known_mines new = ∅) as Hkm.
  { unfold Sentence.known_mines. case_bool_decide as Hsz; [| done].
    apply leibniz_equiv, size_empty_inv. lia. }
  assert (Sentence.known_safes new = nbrs) as Hks.
  { unfold Sentence.known_safes. by rewrite bool_decide_eq_true_2. }
  destruct (refresh_knowledge_effect ai1) as (Hmines & Hsafes & Hmoves & Hlen & Hsent).
  rewrite Hk1 in Hmines, Hsafes, Hlen, Hsent. simpl in Hmines, Hsafes, Hlen, Hsent.
  rewrite ?Hkm, ?Hks in Hmines, Hsafes, Hsent.
  destruct (Hsent 0%nat new eq_refl) as (s' & Hs' & Hcells' & _).
  assert (MinesweeperAI.knowledge (MinesweeperAI.refresh_knowledge ai1) = [s']) as Hk2.
  { destruct (MinesweeperAI.knowledge (MinesweeperAI.refresh_knowledge ai1))
      as [|x [|y l]]; simpl in *; try done. by injection Hs' as ->. }
  assert (Sentence.cells s' = ∅) as Hempty by (rewrite Hcells', Hnew; set_solver).
  destruct (pass_knowledge ai1) as (added & Hpass & [Hsound _ _ _]).
  rewrite Hk2 in Hpass, Hsound.
  rewrite filter_cons_False in Hpass, Hsound by (unfold has_cells; tauto).
  rewrite filter_nil in Hpass, Hsound.
  assert (added = []) as ->.
  { destruct added as [|n added]; [done |].
    destruct (Hsound n) as (a & b & Hab & _); [by left |]. by apply elem_of_nil in Hab. }
  simpl in Hpass.
  assert (MinesweeperAI.knowledge (pass ai1) = []) as Hk3 by (by rewrite Hpass).
  exists (pass ai1). split.
  - apply add_knowledge_done. exists MinesweeperAI.NoChange.
    unfold MinesweeperAI.add_knowledge_exit. fold ai0 ai1.
    destruct fuel as [|[|fuel]]; [lia | lia |].
    rewrite add_knowledge_loop_pass, Hk3, Hk1. cbn [knowledge_eqb length].
    rewrite bool_decide_eq_false_2 by lia.
    rewrite add_knowledge_loop_pass, (pass_empty (pass ai1) Hk3), Hk3. done.
  - rewrite Hpass. simpl. rewrite Hmoves, Hmines, Hsafes.
    unfold ai1. rewrite add_sentence_unfold. simpl.
    repeat split; set_solver.
Qed.

Lemma reveal_zero_on_fresh_engine_witness :
  ∃ ai',
    MinesweeperAI.add_knowledge 2 (1, 1) 0 (MinesweeperAI.init 3 3) = Done ai'
    ∧ MinesweeperAI.moves_made ai' = {[ (1, 1) ]}
    ∧ MinesweeperAI.safes ai'
      = {[ (1, 1) ]} ∪ MinesweeperAI.neighbouring_cells (MinesweeperAI.init 3 3) (1, 1)
    ∧ MinesweeperAI.mines ai' = ∅
    ∧ MinesweeperAI.knowledge ai' = [].
Proof. apply (reveal_zero_on_fresh_engine 2 3 3 (1, 1)). lia. Defined.
